(** * WorldBest: the greeter and its command-line adapter

    A shallow embedding of [src/worldbest/__init__.py] (the function [greet])
    and [src/worldbest/cli.py] (the functions [parse_args] and [main]),
    together with the part of CPython 3.11's [argparse] that the parser built
    in [parse_args] exercises.

    Python code is embedded in a small state-and-exception monad over a
    [world] that holds [sys.argv], the two output streams and what the
    standard output can encode. *)

From Stdlib Require Import List NArith ZArith Bool Lia String Ascii.
Import ListNotations.

Set Implicit Arguments.

(** ** Python strings *)

(** A Python [str] is a sequence of Unicode code points. *)
Definition codepoint := N.
Definition str := list codepoint.

(** String literals of the source, which are all ASCII. *)
Definition lit (s : string) : str := map N_of_ascii (list_ascii_of_string s).

(** A character literal of the source. *)
Definition ch (a : ascii) : codepoint := N_of_ascii a.
Arguments ch a%_char.

Module Str.

Fixpoint eqb (s t : str) : bool :=
  match s, t with
  | [], [] => true
  | c :: s', d :: t' => N.eqb c d && eqb s' t'
  | _, _ => false
  end.

Definition in_range (lo hi c : codepoint) : bool :=
  (N.leb lo c && N.leb c hi)%bool.

(** The code points for which [str.isspace] holds (Unicode 14.0), which are
    the ones [str.strip] removes when it is called without an argument:
    the controls 9 to 13 and 28 to 31, the space, and the Unicode
    separators. *)
Definition whitespace_ranges : list (codepoint * codepoint) :=
  [ (0x9, 0xd); (0x1c, 0x20); (0x85, 0x85); (0xa0, 0xa0);
    (0x1680, 0x1680); (0x2000, 0x200a); (0x2028, 0x2029);
    (0x202f, 0x202f); (0x205f, 0x205f); (0x3000, 0x3000) ]%N.

Definition isspace (c : codepoint) : bool :=
  existsb (fun r => in_range (fst r) (snd r) c) whitespace_ranges.

(** [str.lstrip()]: drop the leading whitespace. *)
Fixpoint lstrip (s : str) : str :=
  match s with
  | [] => []
  | c :: s' => if isspace c then lstrip s' else s
  end.

(** [str.rstrip()]: drop the trailing whitespace. *)
Definition rstrip (s : str) : str := rev (lstrip (rev s)).

(** [str.strip()]: the left index moves past the leading whitespace, then
    the right index moves back over the trailing whitespace of what is
    left. *)
Definition strip (s : str) : str := rstrip (lstrip s).

(** [s.startswith(p)]. *)
Fixpoint startswith (s p : str) : bool :=
  match p, s with
  | [], _ => true
  | d :: p', c :: s' => N.eqb c d && startswith s' p'
  | _ :: _, [] => false
  end.

(** [c in s] for a one-character [c]. *)
Definition contains (c : codepoint) (s : str) : bool := existsb (N.eqb c) s.

(** [s.split(c, 1)] when [c] occurs in [s]: the text before the first [c]
    and the text after it. *)
Fixpoint split1 (c : codepoint) (s : str) : str * str :=
  match s with
  | [] => ([], [])
  | d :: s' =>
      if N.eqb d c then ([], s')
      else let (a, b) := split1 c s' in (d :: a, b)
  end.

End Str.

(** ** Values, exceptions and the world *)

(** The Python values that reach [greet]: [None], a string, or a list of
    strings (what [argparse] stores for an argument that took several
    strings). *)
Inductive value :=
| VNone
| VStr (s : str)
| VList (l : list str).

(** The two actions of the parser, [parser._actions]: the [_HelpAction] for
    [-h/--help] that [ArgumentParser] adds itself, and the [_StoreAction] of
    the positional [name]. *)
Inductive action := HelpAction | StoreAction.

(** The messages [argparse] formats; their text is kept symbolic. *)
Inductive message :=
| UnrecognizedArguments (argv : list str)
    (* 'unrecognized arguments: %s' % ' '.join(argv) *)
| IgnoredExplicitArgument (a : action) (explicit_arg : str)
    (* 'argument -h/--help: ignored explicit argument %r' *)
| AmbiguousOption (arg_string : str) (matches : list str)
    (* 'ambiguous option: %(option)s could match %(matches)s' *)
| UnexpectedOptionString (option_string : str).
    (* 'unexpected option string: %s' *)

Inductive exn :=
| SystemExit (status : Z)
| ArgumentError (a : action) (m : message)
| AttributeError
| UnicodeEncodeError
| ValueError
| KeyError
| IndexError
| NoFuel.   (* not a Python exception: the model's loop bound was reached *)

(** What is written to a stream: literal text, text that [argparse]
    formats, or the report of an exception that nothing caught. *)
Inductive written :=
| Text (s : str)
| Usage                      (* parser.format_usage() *)
| HelpText                   (* parser.format_help() *)
| ErrorLine (m : message)    (* '%(prog)s: error: %(message)s\n' *)
| Traceback (e : exn).       (* sys.excepthook *)

(** The world: [sys.argv], what has been written to the two streams, and
    the code points beyond ASCII that the encoding of [sys.stdout], with its
    error handler, can encode. The streams are open, and every encoding
    that a standard stream takes encodes the ASCII characters. *)
Record world := World {
  sys_argv : list str;
  stdout : list written;
  stderr : list written;
  stdout_encodes : codepoint -> bool
}.

Inductive res (A : Type) :=
| Ok (a : A)
| Raise (e : exn).
Arguments Ok {A} a.
Arguments Raise {A} e.

Definition M (A : Type) : Type := world -> res A * world.

Definition ret {A} (a : A) : M A := fun w => (Ok a, w).

Definition bind {A B} (m : M A) (k : A -> M B) : M B :=
  fun w => match m w with
           | (Ok a, w') => k a w'
           | (Raise e, w') => (Raise e, w')
           end.

Definition raise {A} (e : exn) : M A := fun w => (Raise e, w).

Notation "x <- m ;; k" := (bind m (fun x => k))
  (at level 61, m at next level, right associativity).
Notation "m ;;; k" := (bind m (fun _ => k))
  (at level 61, right associativity).

(** Whether a stream that encodes ASCII and, beyond it, the code points of
    [enc] can encode a text; and whether [sys.stdout] can. *)
Definition encodes (enc : codepoint -> bool) (s : str) : bool :=
  forallb (fun c => N.ltb c 128 || enc c) s.

Definition encodable (w : world) (s : str) : bool :=
  encodes (stdout_encodes w) s.

(** [sys.stdout.write(x)]: the text is encoded before anything is written,
    and a text that the stream cannot encode raises [UnicodeEncodeError].
    The texts that [argparse] formats for this parser are ASCII. *)
Definition write_stdout (x : written) : M unit :=
  fun w =>
    if match x with Text s => encodable w s | _ => true end
    then (Ok tt,
          World (sys_argv w) (stdout w ++ [x]) (stderr w) (stdout_encodes w))
    else (Raise UnicodeEncodeError, w).

(** [sys.stderr.write(x)]: the error handler of [sys.stderr] is
    [backslashreplace], which encodes every text. *)
Definition write_stderr (x : written) : M unit :=
  fun w =>
    (Ok tt,
     World (sys_argv w) (stdout w) (stderr w ++ [x]) (stdout_encodes w)).

(** [print(s)]: the text, then the line end. *)
Definition print (s : str) : M unit :=
  write_stdout (Text s) ;;; write_stdout (Text [ch "010"]).

(** ** [worldbest.greet] *)

(** The method call [name.strip()]: only strings have the method. *)
Definition strip_method (v : value) : M str :=
  match v with
  | VStr s => ret (Str.strip s)
  | VNone | VList _ => raise AttributeError
  end.

(** The conditional expression
    [name.strip() if name is not None else "World"]. *)
Definition safe_name (name : value) : M str :=
  match name with
  | VNone => ret (lit "World")
  | _ => strip_method name
  end.

(** [def greet(name: str = "World") -> str]. A call that passes nothing is
    [greet None], and the parameter then takes its default; a call that
    passes [v] (Python's [None] included, as [VNone]) is [greet (Some v)]. *)
Definition greet (arg : option value) : M str :=
  let name := match arg with Some v => v | None => VStr (lit "World") end in
  safe <- safe_name name ;;
  ret (lit "Hello, " ++ safe ++ lit "!").

(** ** [argparse.ArgumentParser], for the parser of [cli.parse_args]

    [ArgumentParser(prog="worldbest", description="WorldBest CLI")] followed
    by [add_argument("name", nargs="?", default="World", help=...)]:
    [prefix_chars] is ['-'], [allow_abbrev] and [exit_on_error] are on, there
    are no mutually exclusive groups, no argument files and no required
    action, and [type] is the identity. The functions below follow the
    methods of the same name (without the leading underscore). *)

Module Argparse.

Record Namespace := { name : value }.

(** The characters of [arg_strings_pattern]: ['O'], ['A'] and ['-']. *)
Inductive pat := PO | PA | PDash.

(** [(action, option_string, explicit_arg)]. *)
Definition option_tuple := (option action * str * option str)%type.

Definition prefix_chars : str := lit "-".

(** [parser._option_string_actions]. *)
Definition option_string_actions : list (str * action) :=
  [ (lit "-h", HelpAction); (lit "--help", HelpAction) ].

Fixpoint lookup {V} (k : str) (d : list (str * V)) : option V :=
  match d with
  | [] => None
  | (k', v) :: d' => if Str.eqb k k' then Some v else lookup k d'
  end.

(** *** Writing and leaving *)

Definition print_usage_stderr : M unit := write_stderr Usage.

Definition print_help : M unit := write_stdout HelpText.

(** [exit(status, message)]. *)
Definition exit {A} (status : Z) (message : option written) : M A :=
  match message with
  | Some m => write_stderr m ;;; raise (SystemExit status)
  | None => raise (SystemExit status)
  end.

(** [error(message)]: the usage, then the error line, on the standard
    error stream; status 2. *)
Definition error {A} (m : message) : M A :=
  print_usage_stderr ;;; exit 2 (Some (ErrorLine m)).

(** *** Telling options from arguments *)

(** Unicode decimal digits, the class of digits of [re] (category Nd, Unicode
    14.0): the first code point of each run, and how many tens it holds. *)
Definition decimal_runs : list (codepoint * N) :=
  map (fun c => (c, 1%N))
    [ 0x30; 0x660; 0x6f0; 0x7c0; 0x966; 0x9e6; 0xa66; 0xae6; 0xb66; 0xbe6;
      0xc66; 0xce6; 0xd66; 0xde6; 0xe50; 0xed0; 0xf20; 0x1040; 0x1090;
      0x17e0; 0x1810; 0x1946; 0x19d0; 0x1a80; 0x1a90; 0x1b50; 0x1bb0;
      0x1c40; 0x1c50; 0xa620; 0xa8d0; 0xa900; 0xa9d0; 0xa9f0; 0xaa50;
      0xabf0; 0xff10; 0x104a0; 0x10d30; 0x11066; 0x110f0; 0x11136;
      0x111d0; 0x112f0; 0x11450; 0x114d0; 0x11650; 0x116c0; 0x11730;
      0x118e0; 0x11950; 0x11c50; 0x11d50; 0x11da0; 0x16a60; 0x16ac0;
      0x16b50 ]%N
  ++ [ (0x1d7ce, 5) ]%N
  ++ map (fun c => (c, 1%N)) [ 0x1e140; 0x1e2f0; 0x1e950; 0x1fbf0 ]%N.

Definition isdecimal (c : codepoint) : bool :=
  existsb (fun r => Str.in_range (fst r) (fst r + 10 * snd r - 1) c)%N
          decimal_runs.

Fixpoint skip_digits (s : str) : str :=
  match s with
  | [] => []
  | c :: s' => if isdecimal c then skip_digits s' else s
  end.

(** [$]: the end of the string, or just before a newline that ends it. *)
Definition at_end (s : str) : bool :=
  match s with
  | [] => true
  | [c] => N.eqb c (ch "010")
  | _ => false
  end.

(** One or more digits, then [$], at the start of [s]. *)
Definition digits_then_end (s : str) : bool :=
  let s' := skip_digits s in
  (Nat.ltb (List.length s') (List.length s) && at_end s')%bool.

(** [_negative_number_matcher.match]: a dash and digits, or a dash,
    digits if any, a dot and digits; both up to [$]. *)
Definition negative_number (s : str) : bool :=
  match s with
  | c :: s1 =>
      (N.eqb c (ch "-") &&
       (digits_then_end s1
        || match skip_digits s1 with
           | d :: s2 => N.eqb d (ch ".") && digits_then_end s2
           | [] => false
           end))%bool
  | [] => false
  end.

(** [_get_option_tuples]. [inl m] stands for the call [self.error(m)].
    The caller has made sure that [option_string] has two characters. *)
Definition get_option_tuples (option_string : str)
  : message + list option_tuple :=
  match option_string with
  | c0 :: c1 :: _ =>
      if (Str.contains c0 prefix_chars && Str.contains c1 prefix_chars)%bool
      then
        (* allow_abbrev *)
        let '(option_prefix, explicit_arg) :=
          if Str.contains (ch "=") option_string
          then let (p, e) := Str.split1 (ch "=") option_string in (p, Some e)
          else (option_string, None) in
        inr (flat_map
               (fun kv : str * action =>
                  if Str.startswith (fst kv) option_prefix
                  then [(Some (snd kv), fst kv, explicit_arg)] else [])
               option_string_actions)
      else if (Str.contains c0 prefix_chars
               && negb (Str.contains c1 prefix_chars))%bool
      then
        let option_prefix := option_string in
        let short_option_prefix := firstn 2 option_string in
        let short_explicit_arg := skipn 2 option_string in
        inr (flat_map
               (fun kv : str * action =>
                  if Str.eqb (fst kv) short_option_prefix
                  then [(Some (snd kv), fst kv, Some short_explicit_arg)]
                  else if Str.startswith (fst kv) option_prefix
                  then [(Some (snd kv), fst kv, None)] else [])
               option_string_actions)
      else inl (UnexpectedOptionString option_string)
  | _ => inr []
  end.

(** [_parse_optional]: [inr None] for a positional, [inr (Some t)] for an
    option string, [inl m] for the call [self.error(m)]. *)
Definition parse_optional (arg_string : str)
  : message + option option_tuple :=
  match arg_string with
  | [] => inr None
  | c :: _ =>
      if negb (Str.contains c prefix_chars) then inr None
      else
        match lookup arg_string option_string_actions with
        | Some a => inr (Some (Some a, arg_string, None))
        | None =>
            if Nat.eqb (List.length arg_string) 1 then inr None
            else
              let with_equals :=
                if Str.contains (ch "=") arg_string
                then
                  let (option_string, explicit_arg) :=
                    Str.split1 (ch "=") arg_string in
                  match lookup option_string option_string_actions with
                  | Some a => Some (Some a, option_string, Some explicit_arg)
                  | None => None
                  end
                else None in
              match with_equals with
              | Some t => inr (Some t)
              | None =>
                  match get_option_tuples arg_string with
                  | inl m => inl m
                  | inr (t1 :: t2 :: ts) =>
                      inl (AmbiguousOption arg_string
                             (map (fun t : option_tuple => snd (fst t))
                                  (t1 :: t2 :: ts)))
                  | inr [t] => inr (Some t)
                  | inr [] =>
                      (* _has_negative_number_optionals is empty *)
                      if negative_number arg_string then inr None
                      else if Str.contains (ch " ") arg_string then inr None
                      else inr (Some (None, arg_string, None))
                  end
              end
        end
  end.

(** The first loop of [_parse_known_args]: the option tuples by index
    ([option_string_indices]) and the pattern. Everything after the first
    ["--"] is an argument. *)
Fixpoint classify (i : nat) (arg_strings : list str)
  : message + (list (nat * option_tuple) * list pat) :=
  match arg_strings with
  | [] => inr ([], [])
  | arg_string :: rest =>
      if Str.eqb arg_string (lit "--")
      then inr ([], PDash :: map (fun _ => PA) rest)
      else
        match parse_optional arg_string with
        | inl m => inl m
        | inr t =>
            match classify (S i) rest with
            | inl m => inl m
            | inr (indices, parts) =>
                match t with
                | None => inr (indices, PA :: parts)
                | Some tup => inr ((i, tup) :: indices, PO :: parts)
                end
            end
        end
  end.

(** *** Matching the pattern *)

(** The number of leading ['-'] of a pattern. *)
Fixpoint dashes (p : list pat) : nat :=
  match p with
  | PDash :: p' => S (dashes p')
  | _ => 0
  end.

(** The length of the match, at the start of a pattern, of the expression
    for [nargs='?']: any dashes, at most one ['A'], any dashes. The
    expression always matches. *)
Definition match_optional (p : list pat) : nat :=
  let d1 := dashes p in
  let p1 := skipn d1 p in
  let a := match p1 with PA :: _ => 1 | _ => 0 end in
  d1 + a + dashes (skipn a p1).

(** [_match_argument]: the length of the match of the action's
    [_get_nargs_pattern]. For the help option ([nargs=0], an optional, so
    that the dashes are dropped) the expression is the empty group; for
    the positional it is the one of [nargs='?']. Neither can fail to
    match. *)
Definition match_argument (a : action) (p : list pat) : nat :=
  match a with
  | HelpAction => 0
  | StoreAction => match_optional p
  end.

(** [_match_arguments_partial], for the list of pending positionals,
    which holds the one positional or nothing: the match of the whole
    list succeeds at once. *)
Definition match_arguments_partial (actions : list action) (p : list pat)
  : list nat :=
  match actions with
  | [] => []
  | a :: _ => [match_argument a p]
  end.

(** [l[i:j]]. *)
Definition slice {A} (l : list A) (i j : nat) : list A :=
  firstn (j - i) (skipn i l).

(** [list.remove(x)] under [try ... except ValueError: pass]. *)
Fixpoint remove_first (x : str) (l : list str) : list str :=
  match l with
  | [] => []
  | y :: l' => if Str.eqb y x then l' else y :: remove_first x l'
  end.

(** [_get_values]; [_get_value] is the identity and there are no
    [choices]. *)
Definition get_values (a : action) (arg_strings : list str) : value :=
  let arg_strings := remove_first (lit "--") arg_strings in
  match a with
  | StoreAction =>
      (* nargs == OPTIONAL, a positional *)
      match arg_strings with
      | [] => VStr (lit "World")          (* action.default *)
      | [arg_string] => VStr arg_string
      | _ => VList arg_strings
      end
  | HelpAction => VList arg_strings       (* nargs == 0 *)
  end.

(** *** The parsing loop *)

(** The variables that the nested functions of [_parse_known_args]
    update. *)
Record pstate := {
  positionals : list action;
  namespace : Namespace;
  extras : list str
}.

(** [take_action]: the help action prints the help and leaves with status
    0, the store action sets [namespace.name]. *)
Definition take_action (a : action) (argument_strings : list str)
           (st : pstate) : M pstate :=
  let argument_values := get_values a argument_strings in
  match a with
  | HelpAction => print_help ;;; exit 0 None
  | StoreAction =>
      ret {| positionals := positionals st;
             namespace := {| name := argument_values |};
             extras := extras st |}
  end.

Fixpoint take_actions (action_tuples : list (action * list str * str))
         (st : pstate) : M pstate :=
  match action_tuples with
  | [] => ret st
  | (a, args, _) :: rest => st' <- take_action a args st ;; take_actions rest st'
  end.

Section Parse.

Variable arg_strings : list str.
Variable option_string_indices : list (nat * option_tuple).
Variable arg_strings_pattern : list pat.

Fixpoint index_lookup (i : nat) (d : list (nat * option_tuple))
  : option option_tuple :=
  match d with
  | [] => None
  | (k, v) :: d' => if Nat.eqb i k then Some v else index_lookup i d'
  end.

(** The last branch of the loop of [consume_optional]: no explicit
    argument. *)
Definition match_following (start_index : nat) (a : action)
           (option_string : str)
           (action_tuples : list (action * list str * str))
  : M (list (action * list str * str) * nat) :=
  let start := start_index + 1 in
  let selected_patterns := skipn start arg_strings_pattern in
  let arg_count := match_argument a selected_patterns in
  let stop := start + arg_count in
  let args := slice arg_strings start stop in
  ret (action_tuples ++ [(a, args, option_string)], stop).

(** The loop of [consume_optional] while there is an explicit argument:
    [-xyz] is read as [-x -y -z] when no argument is taken. *)
Fixpoint match_explicit (start_index : nat) (a : action)
         (option_string : str) (explicit_arg : str)
         (action_tuples : list (action * list str * str))
         {struct explicit_arg}
  : M (list (action * list str * str) * nat) :=
  let arg_count := match_argument a [PA] in
  match option_string with
  | char :: c1 :: _ =>
      if (Nat.eqb arg_count 0
          && negb (Str.contains c1 prefix_chars)
          && negb (Str.eqb explicit_arg []))%bool
      then
        let action_tuples := action_tuples ++ [(a, [], option_string)] in
        match explicit_arg with
        | e0 :: new_explicit_arg =>
            let option_string' := [char; e0] in
            match lookup option_string' option_string_actions with
            | Some a' =>
                match new_explicit_arg with
                | [] =>
                    match_following start_index a' option_string'
                                    action_tuples
                | _ :: _ =>
                    match_explicit start_index a' option_string'
                                   new_explicit_arg action_tuples
                end
            | None =>
                raise (ArgumentError
                         a (IgnoredExplicitArgument a explicit_arg))
            end
        | [] => raise IndexError
        end
      else if Nat.eqb arg_count 1
      then ret (action_tuples ++ [(a, [explicit_arg], option_string)],
                start_index + 1)
      else raise (ArgumentError
                    a (IgnoredExplicitArgument a explicit_arg))
  | _ => raise IndexError
  end.

(** [consume_optional]. *)
Definition consume_optional (start_index : nat) (st : pstate)
  : M (nat * pstate) :=
  match index_lookup start_index option_string_indices with
  | None => raise KeyError
  | Some (None, _, _) =>
      ret (start_index + 1,
           {| positionals := positionals st;
              namespace := namespace st;
              extras := extras st ++ [nth start_index arg_strings []] |})
  | Some (Some a, option_string, explicit_arg) =>
      r <- match explicit_arg with
           | Some e => match_explicit start_index a option_string e []
           | None => match_following start_index a option_string []
           end ;;
      st' <- take_actions (fst r) st ;;
      ret (snd r, st')
  end.

(** The loop of [consume_positionals] over
    [zip(positionals, arg_counts)]. *)
Fixpoint take_positionals (l : list (action * nat)) (start_index : nat)
         (st : pstate) : M (nat * pstate) :=
  match l with
  | [] => ret (start_index, st)
  | (a, arg_count) :: l' =>
      let args := slice arg_strings start_index (start_index + arg_count) in
      st' <- take_action a args st ;;
      take_positionals l' (start_index + arg_count) st'
  end.

(** [consume_positionals]. *)
Definition consume_positionals (start_index : nat) (st : pstate)
  : M (nat * pstate) :=
  let selected_pattern := skipn start_index arg_strings_pattern in
  let arg_counts :=
    match_arguments_partial (positionals st) selected_pattern in
  r <- take_positionals (combine (positionals st) arg_counts)
                        start_index st ;;
  ret (fst r,
       {| positionals := skipn (List.length arg_counts) (positionals (snd r));
          namespace := namespace (snd r);
          extras := extras (snd r) |}).

(** [min(l)] and [max(l)], which raise [ValueError] on the empty
    list. *)
Definition list_min (l : list nat) : option nat :=
  match l with
  | [] => None
  | x :: l' => Some (fold_right Nat.min x l')
  end.

Definition list_max (l : list nat) : option nat :=
  match l with
  | [] => None
  | x :: l' => Some (fold_right Nat.max x l')
  end.

(** [max(option_string_indices)] if there is an option string, [-1]
    otherwise. *)
Definition max_option_string_index : Z :=
  match list_max (map fst option_string_indices) with
  | Some m => Z.of_nat m
  | None => (-1)%Z
  end.

(** The [while] loop that consumes positionals and optionals in turn.
    Every pass moves [start_index] forward, so that [fuel] passes are
    enough when [fuel] exceeds the number of strings. *)
Fixpoint parse_loop (fuel : nat) (start_index : nat) (st : pstate)
  : M (nat * pstate) :=
  if (Z.of_nat start_index <=? max_option_string_index)%Z
  then
    match fuel with
    | 0 => raise NoFuel
    | S fuel' =>
        match list_min (filter (fun index => Nat.leb start_index index)
                               (map fst option_string_indices)) with
        | None => raise ValueError
        | Some next_option_string_index =>
            r <- (if negb (Nat.eqb start_index next_option_string_index)
                  then
                    p <- consume_positionals start_index st ;;
                    let positionals_end_index := fst p in
                    if Nat.ltb start_index positionals_end_index
                    then ret (inl p)             (* continue *)
                    else ret (inr p)
                  else ret (inr (start_index, st))) ;;
            match r with
            | inl (start_index, st) => parse_loop fuel' start_index st
            | inr (start_index, st) =>
                let '(start_index, st) :=
                  match index_lookup start_index option_string_indices with
                  | None =>
                      let strings :=
                        slice arg_strings start_index
                              next_option_string_index in
                      (next_option_string_index,
                       {| positionals := positionals st;
                          namespace := namespace st;
                          extras := extras st ++ strings |})
                  | Some _ => (start_index, st)
                  end in
                q <- consume_optional start_index st ;;
                parse_loop fuel' (fst q) (snd q)
            end
        end
    end
  else ret (start_index, st).

(** The rest of [_parse_known_args], after the pattern is built. No
    action is required and the conversion of a default is the identity,
    so that the checks after the loop change nothing. *)
Definition parse_strings (ns : Namespace) : M (Namespace * list str) :=
  r <- parse_loop (S (List.length arg_strings)) 0
                  {| positionals := [StoreAction];
                     namespace := ns;
                     extras := [] |} ;;
  q <- consume_positionals (fst r) (snd r) ;;
  let stop_index := fst q in
  ret (namespace (snd q),
       extras (snd q) ++ skipn stop_index arg_strings).

End Parse.

(** [_parse_known_args]. *)
Definition parse_known_args' (arg_strings : list str) (ns : Namespace)
  : M (Namespace * list str) :=
  match classify 0 arg_strings with
  | inl m => error m
  | inr (option_string_indices, arg_strings_pattern) =>
      parse_strings arg_strings option_string_indices arg_strings_pattern ns
  end.

(** [try ... except ArgumentError as err: self.error(str(err))]. *)
Definition exit_on_error {A} (m : M A) : M A :=
  fun w => match m w with
           | (Raise (ArgumentError _ msg), w') => error msg w'
           | r => r
           end.

(** [parse_known_args]: [args=None] stands for [sys.argv[1:]]; the
    namespace starts with the default of [name]. *)
Definition parse_known_args (args : option (list str))
  : M (Namespace * list str) :=
  args <- match args with
          | None => fun w => (Ok (tl (sys_argv w)), w)
          | Some l => ret l
          end ;;
  let ns := {| name := VStr (lit "World") |} in
  exit_on_error (parse_known_args' args ns).

(** [parse_args]. *)
Definition parse_args (args : option (list str)) : M Namespace :=
  r <- parse_known_args args ;;
  match snd r with
  | [] => ret (fst r)
  | argv => error (UnrecognizedArguments argv)
  end.

End Argparse.

(** ** [worldbest.cli] *)

(** [parse_args(argv)]: the parser with its one positional, then
    [parser.parse_args(argv)]. *)
Definition parse_args (argv : option (list str)) : M Argparse.Namespace :=
  Argparse.parse_args argv.

(** [main(argv)]. *)
Definition main (argv : option (list str)) : M Z :=
  ns <- parse_args argv ;;
  s <- greet (Some (Argparse.name ns)) ;;
  print s ;;;
  ret 0%Z.

(** [sys.exit(main())], the module run as a script. *)
Definition script : M unit :=
  status <- main None ;;
  raise (SystemExit status).

(** The interpreter around the script: [SystemExit] ends the process
    silently, any other exception is reported on the standard error. *)
Definition toplevel (r : res unit * world) : res unit * world :=
  match r with
  | (Ok _, _) | (Raise (SystemExit _), _) => r
  | (Raise e, w) =>
      (Raise e,
       World (sys_argv w) (stdout w) (stderr w ++ [Traceback e])
             (stdout_encodes w))
  end.

(** The process started as [worldbest args]: the streams are empty,
    [sys.argv] is the program name followed by the arguments, and [enc]
    tells what the standard output can encode beyond ASCII. *)
Definition invoke (enc : codepoint -> bool) (args : list str)
  : res unit * world :=
  toplevel (script (World (lit "worldbest" :: args) [] [] enc)).

(** The exit status of a process whose script ended with [r]; an exception
    that nothing catches ends the process with status 1. *)
Definition exit_status (r : res unit) : Z :=
  match r with
  | Raise (SystemExit status) => status
  | Ok _ => 0%Z
  | Raise _ => 1%Z
  end.

(** ** The words of the specification *)

(** Two encodings of the standard output. Beyond ASCII, strict UTF-8
    encodes every code point but the surrogates, among them the ones that
    stand for the undecodable bytes of the command line; strict ASCII
    encodes nothing. *)
Definition utf8_strict (c : codepoint) : bool :=
  negb (Str.in_range 0xD800%N 0xDFFF%N c).

Definition ascii_strict (c : codepoint) : bool := false.

(** The trimmed form of a string, as the specification words it: the string
    with its leading and trailing whitespace removed. [t] is what is left of
    [s] between a run [l] and a run [r] of whitespace, and [t] neither starts
    nor ends with whitespace. *)
Definition starts_clean (t : str) : Prop :=
  match t with
  | [] => True
  | c :: _ => Str.isspace c = false
  end.

Definition trimmed_form (s t : str) : Prop :=
  exists l r,
    s = l ++ t ++ r /\
    forallb Str.isspace l = true /\ forallb Str.isspace r = true /\
    starts_clean t /\ starts_clean (rev t).

(** The domain of [greet] in the specification: a string, or nothing. *)
Definition string_or_absent (arg : option value) : bool :=
  match arg with
  | None => true
  | Some (VStr _) => true
  | Some _ => false
  end.

(** The argument strings that [main(argv)] parses in the world [w]. *)
Definition arguments (argv : option (list str)) (w : world) : list str :=
  match argv with
  | Some l => l
  | None => tl (sys_argv w)
  end.

(** What [argparse] makes of the arguments of an invocation. *)
Definition arg_strings_pattern (args : list str) : list Argparse.pat :=
  match Argparse.classify 0 args with
  | inr (_, p) => p
  | inl _ => []
  end.

Definition option_string_indices (args : list str)
  : list (nat * Argparse.option_tuple) :=
  match Argparse.classify 0 args with
  | inr (d, _) => d
  | inl _ => []
  end.

Definition is_A (x : Argparse.pat) : bool :=
  match x with Argparse.PA => true | _ => false end.

Definition is_O (x : Argparse.pat) : bool :=
  match x with Argparse.PO => true | _ => false end.

(** The positional arguments: the strings that the pattern marks ['A']. *)
Fixpoint select_A (args : list str) (p : list Argparse.pat) : list str :=
  match args, p with
  | a :: args', x :: p' =>
      if is_A x then a :: select_A args' p' else select_A args' p'
  | _, _ => []
  end.

Definition positional_args (args : list str) : list str :=
  select_A args (arg_strings_pattern args).

(** An option string that names no option of the parser. *)
Definition is_unknown (t : nat * Argparse.option_tuple) : bool :=
  match t with
  | (_, (None, _, _)) => true
  | _ => false
  end.

Definition has_unknown_flag (args : list str) : bool :=
  existsb is_unknown (option_string_indices args).

(** An option string that [argparse] reads as the help option: [-h],
    [--help], an abbreviation of it, or one of these with a value attached. *)
Definition names_help (d : list (nat * Argparse.option_tuple)) : bool :=
  existsb (fun t => negb (is_unknown t)) d.

Definition has_help_flag (args : list str) : bool :=
  names_help (option_string_indices args).

(** The name that an invocation asks to greet. *)
Definition NAME (args : list str) : str :=
  hd (lit "World") (positional_args args).

(** The greeting line on the standard output. *)
Definition greeting (n : str) : list written :=
  [Text (lit "Hello, " ++ n ++ lit "!"); Text [ch "010"]].

(** An argument string that does not start with a dash. *)
Definition plain (x : str) : bool :=
  match x with
  | [] => true
  | c :: _ => negb (N.eqb c (ch "-"))
  end.

(** The ways to write the help option alone: its two option strings and
    the abbreviations of the long one. *)
Definition help_option_strings : list str :=
  [lit "-h"; lit "--h"; lit "--he"; lit "--hel"; lit "--help"].

(** ** Notions for the proofs *)

(** The option tuples of the parser all name the help option, under an
    option string of two characters or more. *)
Definition tuple_ok (t : Argparse.option_tuple) : Prop :=
  match t with
  | (Some a, o, _) => a = HelpAction /\ 2 <= List.length o
  | (None, _, _) => True
  end.

(** The number of characters of a pattern that satisfy [f]. *)
Definition count (f : Argparse.pat -> bool) (p : list Argparse.pat) : nat :=
  List.length (filter f p).

Definition not_dash (x : Argparse.pat) : bool :=
  match x with Argparse.PDash => false | _ => true end.

(** 1 once the positional has taken its strings, 0 while it is pending. *)
Definition taken (st : Argparse.pstate) : nat :=
  match Argparse.positionals st with [] => 1 | _ => 0 end.

(** What the parsing loop keeps true of its variables when it has reached
    [start_index]: every option string so far is among the extras, and so is
    every argument so far, but for the one that the positional has
    taken. *)
Definition loop_inv (p : list Argparse.pat) (start_index : nat)
           (st : Argparse.pstate) : Prop :=
  (Argparse.positionals st = [StoreAction] \/ Argparse.positionals st = []) /\
  count is_O (firstn start_index p) <= List.length (Argparse.extras st) /\
  count not_dash (firstn start_index p)
  <= List.length (Argparse.extras st) + taken st.

(** The world after the help text has been printed, and after an error has
    been reported. *)
Definition help_printed (w : world) : world :=
  World (sys_argv w) (stdout w ++ [HelpText]) (stderr w) (stdout_encodes w).

Definition error_reported (m : message) (w : world) : world :=
  World (sys_argv w) (stdout w) (stderr w ++ [Usage; ErrorLine m])
        (stdout_encodes w).

(** The two ways in which the help option ends the parsing loop: it prints
    the help and leaves with status 0, or it raises an [ArgumentError]
    because of the value attached to it. *)
Definition stopped_by_help {A} (w : world) (r : res A * world) : Prop :=
  r = (Raise (SystemExit 0), help_printed w) \/
  exists a m, r = (Raise (ArgumentError a m), w).

(** How a run of the parsing loop ends: at an index within the strings, with
    the world untouched and the invariant kept, or stopped by the help
    option. *)
Definition loop_outcome (args : list str)
           (d : list (nat * Argparse.option_tuple)) (p : list Argparse.pat)
           (w : world) (r : res (nat * Argparse.pstate) * world) : Prop :=
  (exists start' st',
      r = (Ok (start', st'), w) /\
      start' <= List.length args /\ loop_inv p start' st') \/
  (names_help d = true /\ stopped_by_help w r).

(** * Properties *)

(** ** String trimming *)

Lemma eqb_eq (s t : str) : Str.eqb s t = true <-> s = t.
Proof.
  revert t; induction s as [|c s IH]; intros [|d t]; simpl;
    try (split; congruence).
  rewrite andb_true_iff, N.eqb_eq, IH. split.
  - intros [-> ->]; reflexivity.
  - intros H; injection H; auto.
Qed.

Lemma lstrip_app_space (l s : str) :
  forallb Str.isspace l = true -> Str.lstrip (l ++ s) = Str.lstrip s.
Proof.
  induction l as [|c l IH]; simpl; intros H; [reflexivity|].
  apply andb_true_iff in H as [-> H]. auto.
Qed.

Lemma lstrip_clean (t : str) :
  starts_clean t -> Str.lstrip t = t.
Proof.
  destruct t as [|c t]; simpl; [reflexivity|]. intros ->. reflexivity.
Qed.

Lemma lstrip_all_space (l : str) :
  forallb Str.isspace l = true -> Str.lstrip l = [].
Proof.
  intros H. rewrite <- (app_nil_r l), lstrip_app_space by assumption.
  reflexivity.
Qed.

Lemma lstrip_split (s : str) :
  exists l, s = l ++ Str.lstrip s /\ forallb Str.isspace l = true /\
            starts_clean (Str.lstrip s).
Proof.
  induction s as [|c s (l & E & Hl & Hc)]; simpl.
  - exists []; simpl; auto.
  - destruct (Str.isspace c) eqn:Ec.
    + exists (c :: l); simpl. rewrite Ec, Hl, <- E; auto.
    + exists []; simpl; auto.
Qed.

Lemma forallb_rev {A} (f : A -> bool) (l : list A) :
  forallb f (rev l) = forallb f l.
Proof.
  induction l as [|a l IH]; simpl; [reflexivity|].
  rewrite forallb_app, IH; simpl. rewrite andb_true_r, andb_comm. reflexivity.
Qed.

Lemma starts_clean_app (t r : str) :
  t <> [] -> starts_clean t -> starts_clean (t ++ r).
Proof. destruct t; simpl; congruence. Qed.

(** [strip] computes the trimmed form. *)
Lemma strip_trimmed (s : str) : trimmed_form s (Str.strip s).
Proof.
  unfold Str.strip, Str.rstrip.
  destruct (lstrip_split s) as (l & E & Hl & Hc).
  destruct (lstrip_split (rev (Str.lstrip s))) as (r & E' & Hr & Hc').
  exists l, (rev r). repeat split.
  - rewrite <- rev_app_distr, <- E', rev_involutive. exact E.
  - exact Hl.
  - rewrite forallb_rev. exact Hr.
  - set (u := Str.lstrip (rev (Str.lstrip s))) in *.
    destruct (rev u) as [|c v] eqn:Eu; simpl; [exact I|].
    assert (Es : Str.lstrip s = (c :: v) ++ rev r).
    { rewrite <- (rev_involutive (Str.lstrip s)), E', rev_app_distr, Eu.
      reflexivity. }
    rewrite Es in Hc. exact Hc.
  - rewrite rev_involutive. exact Hc'.
Qed.

(** The trimmed form is unique, so that it is what [strip] returns. *)
Lemma trimmed_strip (s t : str) : trimmed_form s t -> Str.strip s = t.
Proof.
  intros (l & r & -> & Hl & Hr & Hc & Hc').
  unfold Str.strip, Str.rstrip. rewrite lstrip_app_space by assumption.
  destruct t as [|c t].
  - simpl. rewrite (lstrip_all_space r) by assumption. reflexivity.
  - rewrite (lstrip_clean ((c :: t) ++ r))
      by (apply starts_clean_app; [discriminate | assumption]).
    rewrite rev_app_distr, lstrip_app_space by (rewrite forallb_rev; assumption).
    rewrite (lstrip_clean (rev (c :: t))) by assumption. apply rev_involutive.
Qed.

Lemma strip_all_space (s : str) :
  forallb Str.isspace s = true -> Str.strip s = [].
Proof.
  intros H. apply trimmed_strip. exists s, []. simpl.
  rewrite app_nil_r. auto.
Qed.

Lemma strip_idempotent (s : str) : Str.strip (Str.strip s) = Str.strip s.
Proof.
  apply trimmed_strip.
  destruct (strip_trimmed s) as (l & r & _ & _ & _ & Hc & Hc').
  exists [], []. simpl. rewrite app_nil_r. auto.
Qed.

(** ** The greeter *)

Lemma greet_str (s : str) (w : world) :
  greet (Some (VStr s)) w = (Ok (lit "Hello, " ++ Str.strip s ++ lit "!"), w).
Proof. reflexivity. Qed.

Lemma greet_absent (w : world) :
  greet None w = (Ok (lit "Hello, World!"), w).
Proof. reflexivity. Qed.

(** C1. For a string whose trimmed form is not empty, [greet] returns
    ["Hello, "], the trimmed form and ["!"]; in particular
    [greet("  Bob  ")] returns ["Hello, Bob!"]. *)
Theorem greet_trimmed :
  (forall (s t : str) (w : world),
      trimmed_form s t -> t <> [] ->
      greet (Some (VStr s)) w = (Ok (lit "Hello, " ++ t ++ lit "!"), w)) /\
  (forall w : world,
      greet (Some (VStr (lit "  Bob  "))) w = (Ok (lit "Hello, Bob!"), w)).
Proof.
  split.
  - intros s t w Ht _. rewrite greet_str, (trimmed_strip Ht). reflexivity.
  - intros w. reflexivity.
Qed.

Lemma greet_trimmed_witness :
  greet (Some (VStr (lit " Alice Liddell  "))) (World [] [] [] utf8_strict)
  = (Ok (lit "Hello, Alice Liddell!"), World [] [] [] utf8_strict).
Proof.
  apply (proj1 greet_trimmed (lit " Alice Liddell  ") (lit "Alice Liddell")).
  - exists (lit " "), (lit "  "). repeat split.
  - discriminate.
Defined.

(** C2. Called with no argument, [greet] returns ["Hello, World!"]. *)
Theorem greet_no_argument (w : world) :
  greet None w = (Ok (lit "Hello, World!"), w).
Proof. apply greet_absent. Qed.

(** C3. For a string that is given and is empty or all whitespace, [greet]
    puts the empty trimmed form in the greeting and returns ["Hello, !"],
    which is not the greeting of ["World"]. *)
Theorem greet_whitespace_only (s : str) (w : world) :
  forallb Str.isspace s = true ->
  greet (Some (VStr s)) w = (Ok (lit "Hello, !"), w) /\
  greet (Some (VStr s)) w <> (Ok (lit "Hello, World!"), w).
Proof.
  intros H. rewrite greet_str, (strip_all_space _ H).
  split; [reflexivity | discriminate].
Qed.

Lemma greet_whitespace_only_witness :
  greet (Some (VStr [])) (World [] [] [] utf8_strict)
  = (Ok (lit "Hello, !"), World [] [] [] utf8_strict) /\
  greet (Some (VStr (lit "   "))) (World [] [] [] utf8_strict)
  = (Ok (lit "Hello, !"), World [] [] [] utf8_strict).
Proof.
  split.
  - apply (greet_whitespace_only [] (World [] [] [] utf8_strict)). reflexivity.
  - apply (greet_whitespace_only (lit "   ") (World [] [] [] utf8_strict)).
    reflexivity.
Defined.

(** C4, as the specification states it, fails: the empty string is empty
    after trimming, and its greeting is not ["Hello, World!"]. *)
Lemma greet_empty_is_not_world :
  Str.strip [] = [] /\
  fst (greet (Some (VStr [])) (World [] [] [] utf8_strict))
  <> Ok (lit "Hello, World!").
Proof. split; [reflexivity | discriminate]. Qed.

(** C4, amended. The name defaults to ["World"] when it is absent, and
    [greet] then returns ["Hello, World!"]; a name that is given and is
    empty after trimming is used as it is, and [greet] returns
    ["Hello, !"]. *)
Theorem greet_default_only_when_absent :
  (forall w : world, greet None w = (Ok (lit "Hello, World!"), w)) /\
  (forall (s : str) (w : world),
      Str.strip s = [] ->
      greet (Some (VStr s)) w = (Ok (lit "Hello, !"), w)).
Proof.
  split.
  - intros w. apply greet_absent.
  - intros s w H. rewrite greet_str, H. reflexivity.
Qed.

Lemma greet_default_only_when_absent_witness :
  greet (Some (VStr (lit " "))) (World [] [] [] utf8_strict)
  = (Ok (lit "Hello, !"), World [] [] [] utf8_strict).
Proof.
  apply (proj2 greet_default_only_when_absent (lit " ")
               (World [] [] [] utf8_strict)).
  reflexivity.
Defined.

(** C7. [greet] is total on its domain: for a string or for nothing it
    returns a greeting, raises nothing, and leaves the world as it was. *)
Theorem greet_total (arg : option value) (w : world) :
  string_or_absent arg = true ->
  exists n : str, greet arg w = (Ok (lit "Hello, " ++ n ++ lit "!"), w).
Proof.
  destruct arg as [[|s|l]|]; simpl; try discriminate; intros _.
  - exists (Str.strip s). apply greet_str.
  - exists (lit "World"). apply greet_absent.
Qed.

Lemma greet_total_witness :
  exists n : str,
    greet (Some (VStr (lit "Alice")))
          (World [lit "worldbest"] [] [] utf8_strict)
    = (Ok (lit "Hello, " ++ n ++ lit "!"),
       World [lit "worldbest"] [] [] utf8_strict).
Proof.
  apply (greet_total (Some (VStr (lit "Alice")))
                     (World [lit "worldbest"] [] [] utf8_strict)).
  reflexivity.
Defined.

(** C8. [greet] is deterministic: two calls with the same input, in
    whatever state of the world, return the same result. *)
Theorem greet_deterministic (arg : option value) (w1 w2 : world) :
  fst (greet arg w1) = fst (greet arg w2).
Proof. destruct arg as [[|s|l]|]; reflexivity. Qed.

(** C9. Passed [None], [greet] returns ["Hello, World!"]: the conditional
    yields the literal ["World"] and [strip] is not called. *)
Theorem greet_None :
  safe_name VNone = ret (lit "World") /\
  forall w : world, greet (Some VNone) w = (Ok (lit "Hello, World!"), w).
Proof. split; reflexivity. Qed.

(** C10. Trimming a string before it is passed changes nothing:
    [greet(trim(s))] is [greet(s)], and trimming twice is trimming once. *)
Theorem greet_pre_trimmed (s : str) :
  (forall w : world,
      greet (Some (VStr (Str.strip s))) w = greet (Some (VStr s)) w) /\
  Str.strip (Str.strip s) = Str.strip s /\
  (forall t : str, trimmed_form s t ->
      forall w : world, greet (Some (VStr t)) w = greet (Some (VStr s)) w).
Proof.
  split; [|split].
  - intros w. rewrite !greet_str, strip_idempotent. reflexivity.
  - apply strip_idempotent.
  - intros t Ht w. rewrite <- (trimmed_strip Ht).
    rewrite !greet_str, strip_idempotent. reflexivity.
Qed.

Lemma greet_pre_trimmed_witness :
  greet (Some (VStr (lit "Bob"))) (World [] [] [] utf8_strict)
  = greet (Some (VStr (lit "  Bob  "))) (World [] [] [] utf8_strict).
Proof.
  apply (proj2 (proj2 (greet_pre_trimmed (lit "  Bob  "))) (lit "Bob")).
  exists (lit "  "), (lit "  "). repeat split.
Defined.

(** ** Telling options from arguments *)

Lemma contains_prefix_chars (c : codepoint) :
  Str.contains c Argparse.prefix_chars = N.eqb c (ch "-").
Proof. unfold Str.contains; simpl. apply orb_false_r. Qed.

Lemma startswith_h_dashes (x : str) :
  Str.startswith (lit "-h") (ch "-" :: ch "-" :: x) = false.
Proof. reflexivity. Qed.

Lemma eqb_help_short (c0 c1 : codepoint) (x : str) :
  Str.eqb (lit "--help") (firstn 2 (c0 :: c1 :: x)) = false.
Proof.
  cbn [firstn lit map list_ascii_of_string Str.eqb].
  rewrite !andb_false_r. reflexivity.
Qed.

Lemma get_option_tuples_cases (s : str) :
  Argparse.get_option_tuples s = inr [] \/
  (exists o e, Argparse.get_option_tuples s = inr [(Some HelpAction, o, e)]
               /\ 2 <= List.length o) \/
  (exists m, Argparse.get_option_tuples s = inl m /\
             match s with c :: _ => c <> ch "-" | [] => True end).
Proof.
  destruct s as [|c0 [|c1 rest]]; [left; reflexivity | left; reflexivity|].
  unfold Argparse.get_option_tuples. rewrite !contains_prefix_chars.
  destruct (N.eqb_spec c0 (ch "-")) as [->|N0];
    [| right; right; eexists; split; [reflexivity | exact N0]].
  destruct (N.eqb_spec c1 (ch "-")) as [->|N1]; cbn [andb negb].
  - assert (H : exists x e,
               (if Str.contains (ch "=") (ch "-" :: ch "-" :: rest)
                then let (p, e) :=
                       Str.split1 (ch "=") (ch "-" :: ch "-" :: rest) in
                     (p, Some e)
                else (ch "-" :: ch "-" :: rest, None))
               = (ch "-" :: ch "-" :: x, e)).
    { destruct (Str.contains (ch "=") _); [|eauto].
      cbn [Str.split1].
      change (N.eqb (ch "-") (ch "=")) with false. cbn iota.
      destruct (Str.split1 (ch "=") rest). eauto. }
    destruct H as (x & e & H).
    match goal with
    | |- context [let '(_, _) := ?X in _] =>
        replace X with (ch "-" :: ch "-" :: x, e)
    end.
    unfold Argparse.option_string_actions. cbn [flat_map fst snd].
    rewrite startswith_h_dashes.
    cbn iota. rewrite app_nil_r. cbn [app].
    destruct (Str.startswith (lit "--help") _).
    + right; left. do 2 eexists. split; [reflexivity | simpl; lia].
    + left; reflexivity.
  - unfold Argparse.option_string_actions. cbn [flat_map fst snd].
    rewrite eqb_help_short.
    assert (E : Str.startswith (lit "--help") (ch "-" :: c1 :: rest) = false).
    { cbn [Str.startswith lit map list_ascii_of_string].
      apply N.eqb_neq in N1. rewrite N.eqb_sym in N1.
      change (N_of_ascii "-") with (ch "-"). rewrite N1.
      rewrite andb_false_r. reflexivity. }
    rewrite E. cbn iota. rewrite !app_nil_r.
    destruct (Str.eqb (lit "-h") _).
    + right; left. do 2 eexists. split; [reflexivity | simpl; lia].
    + destruct (Str.startswith (lit "-h") _).
      * right; left. do 2 eexists. split; [reflexivity | simpl; lia].
      * left; reflexivity.
Qed.

Lemma lookup_option_string (k : str) (a : action) :
  Argparse.lookup k Argparse.option_string_actions = Some a ->
  a = HelpAction /\ 2 <= List.length k.
Proof.
  unfold Argparse.option_string_actions; cbn [Argparse.lookup].
  destruct (Str.eqb k (lit "-h")) eqn:E1.
  - apply eqb_eq in E1; subst k. intros [= <-]. split; [reflexivity|simpl; lia].
  - destruct (Str.eqb k (lit "--help")) eqn:E2; [|discriminate].
    apply eqb_eq in E2; subst k. intros [= <-]. split; [reflexivity|simpl; lia].
Qed.

(** An argument string is a positional, an option string that names no
    option, or the help option; [_parse_optional] never calls [error]. *)
Lemma parse_optional_cases (s : str) :
  Argparse.parse_optional s = inr None \/
  Argparse.parse_optional s = inr (Some (None, s, None)) \/
  (exists o e, Argparse.parse_optional s = inr (Some (Some HelpAction, o, e))
               /\ 2 <= List.length o).
Proof.
  unfold Argparse.parse_optional.
  destruct s as [|c rest]; [left; reflexivity|].
  rewrite contains_prefix_chars.
  destruct (N.eqb_spec c (ch "-")) as [->|N0]; cbn [negb]; [|left; reflexivity].
  destruct (Argparse.lookup _ Argparse.option_string_actions) as [a|] eqn:L.
  { apply lookup_option_string in L as [-> L]. right; right; eauto. }
  destruct (Nat.eqb _ 1); [left; reflexivity|].
  destruct (Str.contains (ch "=") (ch "-" :: rest)).
  - destruct (Str.split1 (ch "=") (ch "-" :: rest)) as [o e].
    destruct (Argparse.lookup o _) as [a|] eqn:L'.
    { apply lookup_option_string in L' as [-> L']. right; right; eauto. }
    destruct (get_option_tuples_cases (ch "-" :: rest))
      as [-> | [(o' & e' & -> & Ho) | (m & _ & F)]];
      [| right; right; eauto | congruence].
    destruct (Argparse.negative_number _); [left; reflexivity|].
    destruct (Str.contains (ch " ") _); [left; reflexivity|].
    right; left; reflexivity.
  - destruct (get_option_tuples_cases (ch "-" :: rest))
      as [-> | [(o' & e' & -> & Ho) | (m & _ & F)]];
      [| right; right; eauto | congruence].
    destruct (Argparse.negative_number _); [left; reflexivity|].
    destruct (Str.contains (ch " ") _); [left; reflexivity|].
    right; left; reflexivity.
Qed.

Lemma count_all_A (f : Argparse.pat -> bool) {A} (l : list A) :
  f Argparse.PA = false -> count f (map (fun _ => Argparse.PA) l) = 0.
Proof.
  intros H. unfold count. induction l as [|a l IH]; simpl; [reflexivity|].
  rewrite H. exact IH.
Qed.

Lemma classify_spec (args : list str) (i : nat) :
  exists d p,
    Argparse.classify i args = inr (d, p) /\
    List.length p = List.length args /\
    (forall k t, In (k, t) d -> i <= k < i + List.length args /\ tuple_ok t) /\
    List.length d = count is_O p.
Proof.
  revert i; induction args as [|s args IH]; intros i; simpl.
  - exists [], []. split; [reflexivity|]. split; [reflexivity|].
    split; [intros k t []|reflexivity].
  - destruct (Str.eqb s (lit "--")).
    + do 2 eexists. split; [reflexivity|]. split; [|split].
      * simpl. rewrite length_map. reflexivity.
      * intros k t [].
      * unfold count; simpl. symmetry. apply (count_all_A is_O). reflexivity.
    + destruct (IH (S i)) as (d & p & E & Hl & Hk & Hc). rewrite E.
      assert (Hk' : forall k t, In (k, t) d ->
                                i <= k < i + S (List.length args) /\ tuple_ok t).
      { intros k t H. apply Hk in H. split; [lia | apply H]. }
      destruct (parse_optional_cases s) as [-> | [-> | (o & e & -> & Ho)]].
      * exists d, (Argparse.PA :: p). split; [reflexivity|].
        split; [simpl; lia|]. split; [exact Hk'|exact Hc].
      * exists ((i, (None, s, None)) :: d), (Argparse.PO :: p).
        split; [reflexivity|]. split; [simpl; lia|]. split.
        -- intros k t [[= <- <-]|H]; [split; [lia|exact I] | auto].
        -- unfold count in *; simpl; lia.
      * exists ((i, (Some HelpAction, o, e)) :: d), (Argparse.PO :: p).
        split; [reflexivity|]. split; [simpl; lia|]. split.
        -- intros k t [[= <- <-]|H]; [split; [lia|simpl; auto] | auto].
        -- unfold count in *; simpl; lia.
Qed.

(** ** Matching the pattern *)

Lemma count_app (f : Argparse.pat -> bool) (p q : list Argparse.pat) :
  count f (p ++ q) = count f p + count f q.
Proof. unfold count. rewrite filter_app, length_app. reflexivity. Qed.

Lemma count_le_length (f : Argparse.pat -> bool) (p : list Argparse.pat) :
  count f p <= List.length p.
Proof. apply filter_length_le. Qed.

Lemma firstn_add {A} (n m : nat) (l : list A) :
  firstn (n + m) l = firstn n l ++ firstn m (skipn n l).
Proof.
  revert l; induction n as [|n IH]; intros [|a l]; simpl;
    rewrite ?firstn_nil; try reflexivity.
  rewrite IH. reflexivity.
Qed.

Lemma dashes_le (p : list Argparse.pat) : Argparse.dashes p <= List.length p.
Proof. induction p as [|[] p IH]; simpl; lia. Qed.

Lemma count_firstn_dashes (f : Argparse.pat -> bool) (p : list Argparse.pat) :
  f Argparse.PDash = false -> count f (firstn (Argparse.dashes p) p) = 0.
Proof.
  intros H. induction p as [|[] p IH]; simpl; try reflexivity.
  unfold count in *; simpl. rewrite H. exact IH.
Qed.

Lemma match_optional_le (p : list Argparse.pat) :
  Argparse.match_optional p <= List.length p.
Proof.
  unfold Argparse.match_optional.
  set (d1 := Argparse.dashes p). set (p1 := skipn d1 p).
  assert (H1 : d1 <= List.length p) by apply dashes_le.
  assert (H2 : List.length p1 = List.length p - d1) by apply length_skipn.
  clearbody p1 d1.
  destruct p1 as [|x p2]; simpl in *; [lia|].
  pose proof (dashes_le p2).
  destruct x; simpl in *; lia.
Qed.

Lemma match_optional_count (f : Argparse.pat -> bool) (p : list Argparse.pat) :
  f Argparse.PDash = false ->
  count f (firstn (Argparse.match_optional p) p)
  <= if f Argparse.PA then 1 else 0.
Proof.
  intros H. unfold Argparse.match_optional.
  set (d1 := Argparse.dashes p). set (p1 := skipn d1 p).
  rewrite <- Nat.add_assoc, firstn_add, count_app.
  unfold d1 at 1. rewrite count_firstn_dashes by assumption. fold p1.
  rewrite firstn_add, count_app, count_firstn_dashes by assumption.
  clearbody p1.
  destruct p1 as [|[] p2]; simpl; try lia.
  unfold count; simpl. destruct (f Argparse.PA); simpl; lia.
Qed.


(** ** The parsing loop *)

Lemma count_firstn_step (f : Argparse.pat -> bool) (p : list Argparse.pat)
      (i j : nat) :
  i <= j -> count f (firstn j p) <= count f (firstn i p) + (j - i).
Proof.
  intros H. replace j with (i + (j - i)) at 1 by lia.
  rewrite firstn_add, count_app.
  pose proof (count_le_length f (firstn (j - i) (skipn i p))) as H1.
  pose proof (firstn_le_length (j - i) (skipn i p)). lia.
Qed.

Lemma length_slice {A} (l : list A) (i j : nat) :
  j <= List.length l -> List.length (Argparse.slice l i j) = j - i.
Proof.
  intros H. unfold Argparse.slice. rewrite length_firstn, length_skipn. lia.
Qed.

Lemma index_lookup_in (k : nat) (d : list (nat * Argparse.option_tuple))
      (t : Argparse.option_tuple) :
  Argparse.index_lookup k d = Some t -> In (k, t) d.
Proof.
  induction d as [|[k' t'] d IH]; simpl; [discriminate|].
  destruct (Nat.eqb_spec k k') as [->|N].
  - intros [= ->]. left; reflexivity.
  - intros H. right; auto.
Qed.

Lemma in_index_lookup (k : nat) (d : list (nat * Argparse.option_tuple)) :
  In k (map fst d) -> exists t, Argparse.index_lookup k d = Some t.
Proof.
  induction d as [|[k' t'] d IH]; simpl; [intros []|].
  destruct (Nat.eqb_spec k k') as [->|N]; [eauto|].
  intros [E|H]; [congruence | auto].
Qed.

Lemma list_min_in (l : list nat) (m : nat) :
  Argparse.list_min l = Some m -> In m l.
Proof.
  destruct l as [|x l]; simpl; [discriminate|]. intros [= <-].
  induction l as [|y l IH]; simpl; [auto|].
  destruct (Nat.min_spec y (fold_right Nat.min x l)) as [[_ ->]|[_ ->]];
    [auto | destruct IH; auto].
Qed.

Lemma list_max_in (l : list nat) (m : nat) :
  Argparse.list_max l = Some m -> In m l.
Proof.
  destruct l as [|x l]; simpl; [discriminate|]. intros [= <-].
  induction l as [|y l IH]; simpl; [auto|].
  destruct (Nat.max_spec y (fold_right Nat.max x l)) as [[_ ->]|[_ ->]];
    [destruct IH; auto | auto].
Qed.

Lemma names_help_in (d : list (nat * Argparse.option_tuple)) (k : nat)
      (a : action) (o : str) (e : option str) :
  In (k, (Some a, o, e)) d -> names_help d = true.
Proof.
  intros H. apply existsb_exists. eexists; split; [exact H | reflexivity].
Qed.

Section Loop.

Variable args : list str.
Variable d : list (nat * Argparse.option_tuple).
Variable p : list Argparse.pat.
Hypothesis Hlen : List.length p = List.length args.
Hypothesis Hkeys :
  forall k t, In (k, t) d -> k < List.length args /\ tuple_ok t.

Lemma match_following_spec start o acc w :
  exists stop,
    Argparse.match_following args p start HelpAction o acc w
    = (Ok (acc ++ [(HelpAction, [], o)], stop), w).
Proof.
  unfold Argparse.match_following, ret. simpl.
  rewrite Nat.add_0_r. unfold Argparse.slice. rewrite Nat.sub_diag. simpl.
  eauto.
Qed.

Lemma match_explicit_spec e : forall start o acc w,
  2 <= List.length o ->
  (exists stop rest,
      Argparse.match_explicit args p start HelpAction o e acc w
      = (Ok (acc ++ (HelpAction, [], o) :: rest, stop), w)) \/
  (exists m,
      Argparse.match_explicit args p start HelpAction o e acc w
      = (Raise (ArgumentError HelpAction m), w)).
Proof.
  induction e as [|e0 e IH]; intros start o acc w Ho;
    destruct o as [|c0 [|c1 o']]; simpl in Ho; try lia.
  - cbn. rewrite andb_false_r. cbn. right; eexists; reflexivity.
  - cbn -[Argparse.lookup Argparse.match_following].
    destruct (N.eqb c1 45); cbn [andb orb negb];
      [right; eexists; reflexivity|].
    destruct (Argparse.lookup [c0; e0] Argparse.option_string_actions)
      as [a'|] eqn:L; [|right; eexists; reflexivity].
    apply lookup_option_string in L as [-> _].
    destruct e as [|e1 e]; cbv iota.
    + destruct (match_following_spec start [c0; e0]
                  (acc ++ [(HelpAction, [], c0 :: c1 :: o')]) w)
        as (stop & E).
      left. exists stop, [(HelpAction, [], [c0; e0])].
      etransitivity; [exact E|]. rewrite <- app_assoc. reflexivity.
    + destruct (IH start [c0; e0]
                   (acc ++ [(HelpAction, [], c0 :: c1 :: o')]) w)
        as [(stop & rest & E) | (m & E)]; [simpl; lia | |].
      * left. exists stop, ((HelpAction, [], [c0; e0]) :: rest).
        etransitivity; [exact E|]. rewrite <- app_assoc. reflexivity.
      * right. exists m. exact E.
Qed.

Lemma loop_inv_extend i j st st' :
  loop_inv p i st -> i <= j ->
  Argparse.positionals st' = Argparse.positionals st ->
  List.length (Argparse.extras st')
  = List.length (Argparse.extras st) + (j - i) ->
  loop_inv p j st'.
Proof.
  intros (Hp & HO & HA) Hij Ep Ee. unfold loop_inv, taken in *.
  rewrite Ep, Ee.
  pose proof (count_firstn_step is_O p Hij).
  pose proof (count_firstn_step not_dash p Hij).
  repeat split; [exact Hp | lia | lia].
Qed.

Lemma take_actions_help args' o rest st w :
  Argparse.take_actions ((HelpAction, args', o) :: rest) st w
  = (Raise (SystemExit 0), help_printed w).
Proof. reflexivity. Qed.

Lemma consume_optional_spec start st w t :
  Argparse.index_lookup start d = Some t ->
  loop_inv p start st ->
  (exists st',
      Argparse.consume_optional args d p start st w
      = (Ok (start + 1, st'), w) /\ loop_inv p (start + 1) st') \/
  (names_help d = true /\
   stopped_by_help w (Argparse.consume_optional args d p start st w)).
Proof.
  intros L Hinv. unfold Argparse.consume_optional. rewrite L.
  pose proof (index_lookup_in _ _ L) as Hin.
  destruct t as [[[a|] o] e].
  - right. split; [eapply names_help_in; exact Hin|].
    destruct (Hkeys _ _ Hin) as [_ [-> Ho]].
    unfold bind, stopped_by_help.
    destruct e as [e|].
    + destruct (match_explicit_spec e start o [] w Ho)
        as [(stop & rest & E) | (m & E)].
      * left. rewrite E. reflexivity.
      * right. rewrite E. eauto.
    + destruct (match_following_spec start o [] w) as (stop & E).
      left. rewrite E. reflexivity.
  - left. eexists. split; [reflexivity|].
    eapply loop_inv_extend; [exact Hinv | lia | reflexivity |].
    simpl. rewrite length_app. simpl. lia.
Qed.

Lemma consume_positionals_spec start st w :
  loop_inv p start st -> start <= List.length args ->
  exists pe st',
    Argparse.consume_positionals args p start st w = (Ok (pe, st'), w) /\
    start <= pe <= List.length args /\ loop_inv p pe st'.
Proof.
  intros (Hp & HO & HA) Hs. unfold Argparse.consume_positionals.
  unfold taken in HA.
  destruct Hp as [Hp|Hp]; rewrite Hp in *; cbn.
  - do 2 eexists. split; [reflexivity|].
    pose proof (match_optional_le (skipn start p)) as Hle.
    rewrite length_skipn in Hle.
    split; [lia|]. unfold loop_inv, taken; cbn. rewrite Hp; cbn.
    rewrite !firstn_add, !count_app.
    pose proof (match_optional_count is_O (skipn start p) eq_refl).
    pose proof (match_optional_count not_dash (skipn start p) eq_refl).
    cbn in *. repeat split; [right; reflexivity | lia | lia].
  - do 2 eexists. split; [reflexivity|].
    split; [lia|]. unfold loop_inv, taken; cbn. rewrite Hp.
    repeat split; [right; reflexivity | lia | lia].
Qed.

Lemma stopped_by_help_bind {A B} (m : M A) (k : A -> M B) w :
  stopped_by_help w (m w) -> stopped_by_help w (bind m k w).
Proof.
  unfold stopped_by_help, bind. intros [E | (a & msg & E)]; rewrite E; eauto.
Qed.

Lemma next_option_string_index start :
  (Z.of_nat start <=? Argparse.max_option_string_index d)%Z = true ->
  exists next t,
    Argparse.list_min (filter (fun index => Nat.leb start index) (map fst d))
    = Some next /\
    start <= next < List.length args /\
    Argparse.index_lookup next d = Some t.
Proof.
  unfold Argparse.max_option_string_index. intros H.
  destruct (Argparse.list_max (map fst d)) as [m|] eqn:Em;
    [|apply Z.leb_le in H; lia].
  apply Z.leb_le in H. apply list_max_in in Em.
  assert (Hm : In m (filter (fun index => Nat.leb start index) (map fst d))).
  { apply filter_In. split; [exact Em|]. apply Nat.leb_le. lia. }
  destruct (Argparse.list_min _) as [next|] eqn:En.
  - apply list_min_in, filter_In in En as [Hn1 Hn2].
    apply Nat.leb_le in Hn2.
    destruct (in_index_lookup _ _ Hn1) as (t & L).
    exists next, t. split; [reflexivity|]. split; [|exact L].
    apply index_lookup_in, Hkeys in L. lia.
  - destruct (filter _ _); [destruct Hm | discriminate].
Qed.

Lemma parse_loop_spec fuel : forall start st w,
  start <= List.length args -> List.length args < fuel + start ->
  loop_inv p start st ->
  loop_outcome args d p w (Argparse.parse_loop args d p fuel start st w).
Proof.
  induction fuel as [|fuel IH]; intros start st w Hs Hf Hinv; [lia|].
  cbn [Argparse.parse_loop].
  destruct (Z.leb _ _) eqn:Hmax; [|left; exists start, st; auto].
  destruct (next_option_string_index _ Hmax) as (next & t & -> & Hn & L).
  (* what follows the consumption of the positionals, from index [i] *)
  assert (tail : forall i st1 t1,
             start <= i -> Argparse.index_lookup i d = Some t1 ->
             loop_inv p i st1 ->
             loop_outcome args d p w
               (bind (Argparse.consume_optional args d p i st1)
                     (fun q => Argparse.parse_loop args d p fuel
                                                   (fst q) (snd q)) w)).
  { intros i st1 t1 Hi Li Hinv1.
    pose proof (proj1 (Hkeys _ _ (index_lookup_in _ _ Li))) as Hlt.
    destruct (consume_optional_spec w Li Hinv1)
      as [(st' & E & Hinv') | [Hh Hstop]].
    - unfold bind. rewrite E. cbn [fst snd].
      apply IH; [lia | lia | exact Hinv'].
    - right. split; [exact Hh|]. apply stopped_by_help_bind. exact Hstop. }
  destruct (Nat.eqb_spec start next) as [<-|Hne]; cbn [negb].
  - unfold bind at 1. unfold ret at 1. rewrite L.
    apply (tail start st t); [lia | exact L | exact Hinv].
  - destruct (consume_positionals_spec w Hinv Hs)
      as (pe & st1 & E & Hpe & Hinv1).
    unfold bind at 1. unfold bind at 1. rewrite E. cbn [fst].
    destruct (Nat.ltb_spec start pe) as [Hlt|Hge]; unfold ret at 1.
    + apply IH; [lia | lia | exact Hinv1].
    + assert (pe = start) by lia; subst pe.
      destruct (Argparse.index_lookup start d) as [t1|] eqn:L1.
      * apply (tail start st1 t1); [lia | exact L1 | exact Hinv1].
      * apply (tail next _ t); [lia | exact L|].
        eapply loop_inv_extend; [exact Hinv1 | lia | reflexivity|].
        cbn. rewrite length_app, length_slice by lia. reflexivity.
Qed.

Lemma parse_strings_extras ns w :
  1 <= count is_O p \/ 2 <= count not_dash p ->
  (exists ns' x xs,
      Argparse.parse_strings args d p ns w = (Ok (ns', x :: xs), w)) \/
  (names_help d = true /\
   stopped_by_help w (Argparse.parse_strings args d p ns w)).
Proof.
  intros Hcount. unfold Argparse.parse_strings.
  set (st0 := {| Argparse.positionals := [StoreAction];
                 Argparse.namespace := ns;
                 Argparse.extras := [] |}).
  assert (Hinv0 : loop_inv p 0 st0).
  { unfold loop_inv, taken, count; cbn. repeat split; auto. }
  destruct (@parse_loop_spec (S (List.length args)) 0 st0 w)
    as [(start & st & E & Hs & Hinv) | [Hh Hstop]];
    [lia | lia | exact Hinv0 | |].
  - unfold bind at 1. rewrite E. cbn [fst snd].
    destruct (consume_positionals_spec w Hinv Hs)
      as (stop & st' & E' & Hstop & (_ & HO & HA)).
    unfold bind at 1. rewrite E'. cbn [fst snd]. unfold ret.
    left.
    assert (Hl : List.length (Argparse.extras st' ++ skipn stop args)
                 = List.length (Argparse.extras st')
                   + (List.length p - stop)).
    { rewrite length_app, length_skipn. lia. }
    assert (Hf : firstn (List.length p) p = p) by apply firstn_all.
    pose proof (@count_firstn_step is_O p stop (List.length p)) as H1.
    pose proof (@count_firstn_step not_dash p stop (List.length p)) as H2.
    rewrite Hf in H1, H2. unfold taken in HA.
    destruct (Argparse.extras st' ++ skipn stop args) as [|x xs] eqn:Ex.
    + simpl in Hl. destruct (Argparse.positionals st'); lia.
    + eauto.
  - right. split; [exact Hh|]. apply stopped_by_help_bind. exact Hstop.
Qed.

End Loop.

Lemma count_A_not_dash (p : list Argparse.pat) :
  count is_A p <= count not_dash p.
Proof.
  unfold count. induction p as [|[] p IH]; simpl; lia.
Qed.

Lemma length_select_A (p : list Argparse.pat) : forall args : list str,
  List.length p = List.length args ->
  List.length (select_A args p) = count is_A p.
Proof.
  unfold count.
  induction p as [|x p IH]; intros [|a args]; simpl; try discriminate;
    [reflexivity|].
  intros [= H]. destruct x; simpl; rewrite IH by assumption; reflexivity.
Qed.

Lemma error_spec {A} (m : message) (w : world) :
  @Argparse.error A m w = (Raise (SystemExit 2), error_reported m w).
Proof.
  unfold Argparse.error, Argparse.exit, Argparse.print_usage_stderr, bind,
    write_stderr, raise, error_reported. cbn.
  rewrite <- app_assoc. reflexivity.
Qed.

(** An invocation with an option string, or with two positional arguments
    or more, is not accepted: [parse_args] reports an error and leaves with
    status 2, unless the help option stops it first. *)
Lemma parse_args_rejects (argv : option (list str)) (w : world) :
  option_string_indices (arguments argv w) <> [] \/
  2 <= List.length (positional_args (arguments argv w)) ->
  (exists m,
      parse_args argv w = (Raise (SystemExit 2), error_reported m w)) \/
  (has_help_flag (arguments argv w) = true /\
   parse_args argv w = (Raise (SystemExit 0), help_printed w)).
Proof.
  set (args := arguments argv w).
  unfold has_help_flag, positional_args,
    option_string_indices, arg_strings_pattern.
  intros H.
  assert (E : parse_args argv w
              = bind (Argparse.exit_on_error
                        (Argparse.parse_known_args' args
                           {| Argparse.name := VStr (lit "World") |}))
                     (fun r => match snd r with
                               | [] => ret (fst r)
                               | x :: xs =>
                                   Argparse.error
                                     (UnrecognizedArguments (x :: xs))
                               end) w).
  { destruct argv; reflexivity. }
  rewrite E. clear E. unfold Argparse.parse_known_args'.
  destruct (classify_spec args 0) as (d & p & Ec & Hlen & Hkeys & Hd).
  rewrite Ec in *.
  assert (Hkeys' : forall k t, In (k, t) d ->
                               k < List.length args /\ tuple_ok t).
  { intros k t Hin. apply Hkeys in Hin. split; [lia | apply Hin]. }
  assert (Hcount : 1 <= count is_O p \/ 2 <= count not_dash p).
  { destruct H as [H|H].
    - left. rewrite <- Hd. destruct d; [congruence | simpl; lia].
    - right. rewrite length_select_A in H by assumption.
      pose proof (count_A_not_dash p). lia. }
  destruct (@parse_strings_extras args d p Hlen Hkeys'
              {| Argparse.name := VStr (lit "World") |} w Hcount)
    as [(ns' & x & xs & E) | [Hh [E | (a & m & E)]]];
    unfold bind, Argparse.exit_on_error; rewrite E.
  - left. eexists. cbn [fst snd]. apply error_spec.
  - right. split; [exact Hh | reflexivity].
  - left. eexists. apply error_spec.
Qed.

(** ** Accepted invocations *)

Lemma parse_optional_no_error (s : str) (m : message) :
  Argparse.parse_optional s <> inl m.
Proof.
  destruct (parse_optional_cases s) as [E | [E | (o & e & E & _)]];
    rewrite E; discriminate.
Qed.

Ltac classify_head x E P :=
  destruct (Str.eqb x (lit "--")) eqn:E;
  [ apply eqb_eq in E; subst x
  | destruct (Argparse.parse_optional x) as [?m|[[[[?a|] ?o] ?e]|]] eqn:P;
    [ exfalso; exact (parse_optional_no_error _ P) | | | ] ].

(** With no option string and at most one positional argument, the strings
    are nothing, a name, and possibly one ["--"] before or after it. *)
Lemma accepted_shapes (args : list str) :
  option_string_indices args = [] ->
  List.length (positional_args args) <= 1 ->
  args = [] \/ args = [lit "--"] \/
  (exists y, args = [lit "--"; y]) \/
  (exists x, (args = [x] \/ args = [x; lit "--"]) /\
             Str.eqb x (lit "--") = false /\
             Argparse.parse_optional x = inr None).
Proof.
  unfold positional_args, option_string_indices, arg_strings_pattern.
  destruct args as [|x rest]; [left; reflexivity|].
  cbn [Argparse.classify].
  destruct (classify_spec rest 1) as (d & p & Ec & Hlen & _ & _).
  rewrite Ec.
  classify_head x E P.
  - (* "--" first *)
    change (Str.eqb (lit "--") (lit "--")) with true. cbn iota.
    intros _ H. cbn in H.
    destruct rest as [|y [|z rest]];
      [right; left; reflexivity | right; right; left; eauto |].
    cbn in H. lia.
  - intros [=].
  - intros [=].
  - intros -> H.
    destruct rest as [|y rest]; [right; right; right; exists x; auto|].
    cbn [Argparse.classify] in Ec.
    destruct (classify_spec rest 2) as (d' & p' & Ec' & Hlen' & _ & _).
    rewrite Ec' in Ec.
    classify_head y E' P'.
    + change (Str.eqb (lit "--") (lit "--")) with true in Ec. cbn iota in Ec.
      injection Ec as <-. cbn in H.
      destruct rest as [|z rest]; [right; right; right; exists x; auto|].
      cbn in H. lia.
    + discriminate.
    + discriminate.
    + injection Ec as _ <-. cbn in H. lia.
Qed.

Lemma parse_args_unfold (argv : option (list str)) (w : world) :
  parse_args argv w
  = bind (Argparse.exit_on_error
            (Argparse.parse_known_args' (arguments argv w)
               {| Argparse.name := VStr (lit "World") |}))
         (fun r => match snd r with
                   | [] => ret (fst r)
                   | x :: xs =>
                       Argparse.error (UnrecognizedArguments (x :: xs))
                   end) w.
Proof. destruct argv; reflexivity. Qed.

(** Runs [parse_strings] on strings whose pattern is known. *)
Ltac run_parse_strings :=
  cbv [Argparse.parse_strings Argparse.parse_loop Argparse.exit_on_error
       Argparse.max_option_string_index Argparse.list_max map bind ret
       Z.leb Z.of_nat Z.compare Argparse.consume_positionals
       Argparse.positionals Argparse.match_arguments_partial
       Argparse.match_argument Argparse.match_optional Argparse.dashes
       skipn combine Argparse.take_positionals Argparse.take_action
       Argparse.get_values Argparse.slice Nat.add Nat.sub firstn
       Argparse.remove_first List.length fst snd Argparse.extras
       Argparse.namespace app select_A is_A hd].

(** With no option string and at most one positional argument,
    [parse_args] returns the namespace whose [name] is that argument, or
    ["World"] when there is none. *)
Lemma parse_args_accepts (argv : option (list str)) (w : world) :
  option_string_indices (arguments argv w) = [] ->
  List.length (positional_args (arguments argv w)) <= 1 ->
  parse_args argv w
  = (Ok {| Argparse.name := VStr (NAME (arguments argv w)) |}, w).
Proof.
  rewrite parse_args_unfold.
  generalize (arguments argv w) as args. intros args H1 H2.
  destruct (accepted_shapes _ H1 H2)
    as [-> | [-> | [(y & ->) | (x & [-> | ->] & E & P)]]];
    unfold NAME, positional_args, arg_strings_pattern,
      Argparse.parse_known_args';
    cbn [Argparse.classify]; rewrite ?E, ?P.
  - reflexivity.
  - reflexivity.
  - reflexivity.
  - run_parse_strings.
    rewrite E. reflexivity.
  - change (Str.eqb (lit "--") (lit "--")) with true. cbv iota.
    run_parse_strings.
    change (Str.eqb (lit "--") (lit "--")) with true.
    rewrite E. reflexivity.
Qed.

(** ** The command line *)

Lemma encodes_greeting (enc : codepoint -> bool) (n : str) :
  encodes enc (lit "Hello, " ++ n ++ lit "!") = encodes enc n.
Proof.
  unfold encodes. rewrite !forallb_app. cbn. apply andb_true_r.
Qed.

Lemma print_encodable (s : str) (w : world) :
  encodable w s = true ->
  print s w
  = (Ok tt,
     World (sys_argv w) (stdout w ++ [Text s; Text [ch "010"]]) (stderr w)
           (stdout_encodes w)).
Proof.
  intros E. unfold print, bind, write_stdout. rewrite E. cbn.
  rewrite <- app_assoc. reflexivity.
Qed.

Lemma print_not_encodable (s : str) (w : world) :
  encodable w s = false -> print s w = (Raise UnicodeEncodeError, w).
Proof. intros E. unfold print, bind, write_stdout. rewrite E. reflexivity. Qed.

Lemma main_after_parse (argv : option (list str)) (w : world) (n : str) :
  parse_args argv w = (Ok {| Argparse.name := VStr n |}, w) ->
  encodable w (Str.strip n) = true ->
  main argv w
  = (Ok 0%Z,
     World (sys_argv w) (stdout w ++ greeting (Str.strip n)) (stderr w)
           (stdout_encodes w)).
Proof.
  intros E He. unfold main, bind at 1. rewrite E. cbn [Argparse.name].
  unfold bind at 1. rewrite greet_str.
  unfold bind. rewrite print_encodable; [reflexivity|].
  unfold encodable. rewrite encodes_greeting. exact He.
Qed.

Lemma main_cannot_encode (argv : option (list str)) (w : world) (n : str) :
  parse_args argv w = (Ok {| Argparse.name := VStr n |}, w) ->
  encodable w (Str.strip n) = false ->
  main argv w = (Raise UnicodeEncodeError, w).
Proof.
  intros E He. unfold main, bind at 1. rewrite E. cbn [Argparse.name].
  unfold bind at 1. rewrite greet_str.
  unfold bind. rewrite print_not_encodable; [reflexivity|].
  unfold encodable. rewrite encodes_greeting. exact He.
Qed.

Lemma main_raises (argv : option (list str)) (w w' : world) (e : exn) :
  parse_args argv w = (Raise e, w') -> main argv w = (Raise e, w').
Proof. intros E. unfold main, bind. rewrite E. reflexivity. Qed.

Lemma invoke_exits (enc : codepoint -> bool) (args : list str) (w' : world)
      (status : Z) :
  main None (World (lit "worldbest" :: args) [] [] enc)
  = (Raise (SystemExit status), w') ->
  invoke enc args = (Raise (SystemExit status), w').
Proof. intros E. unfold invoke, script, bind. rewrite E. reflexivity. Qed.

Lemma invoke_returns (enc : codepoint -> bool) (args : list str) (w' : world)
      (status : Z) :
  main None (World (lit "worldbest" :: args) [] [] enc) = (Ok status, w') ->
  invoke enc args = (Raise (SystemExit status), w').
Proof. intros E. unfold invoke, script, bind. rewrite E. reflexivity. Qed.

Lemma unknown_flag_indices (args : list str) :
  has_unknown_flag args = true -> option_string_indices args <> [].
Proof.
  unfold has_unknown_flag. destruct (option_string_indices args);
    [discriminate | discriminate].
Qed.

(** The accepted invocations, as the process sees them: the greeting and
    status 0 when the standard output can encode the name; otherwise
    [print] raises, nothing is printed, and the interpreter reports the
    exception. *)
Lemma invoke_accepted (enc : codepoint -> bool) (args : list str) :
  option_string_indices args = [] ->
  List.length (positional_args args) <= 1 ->
  invoke enc args
  = if encodes enc (Str.strip (NAME args))
    then (Raise (SystemExit 0),
          World (lit "worldbest" :: args)
                (greeting (Str.strip (NAME args))) [] enc)
    else (Raise UnicodeEncodeError,
          World (lit "worldbest" :: args) []
                [Traceback UnicodeEncodeError] enc).
Proof.
  intros Hd Hp.
  set (w := World (lit "worldbest" :: args) [] [] enc).
  assert (E : parse_args None w
              = (Ok {| Argparse.name := VStr (NAME args) |}, w))
    by (apply parse_args_accepts; assumption).
  destruct (encodes enc (Str.strip (NAME args))) eqn:He.
  - apply invoke_returns. fold w. rewrite (main_after_parse _ E He).
    reflexivity.
  - unfold invoke, script, bind. fold w.
    rewrite (main_cannot_encode _ E He). reflexivity.
Qed.

(** C5, as the specification states it, fails twice. [worldbest "  Bob  "]
    is accepted, its positional argument is ["  Bob  "], and the line printed
    is [Hello, Bob!], not [Hello,   Bob  !]. And an argument that holds the
    code point U+DCFF (the undecodable byte 255 of a command line) is
    accepted, but a standard output in strict UTF-8 cannot encode it: [main]
    raises [UnicodeEncodeError] in [print], prints nothing and returns
    nothing, and the exit status is 1. *)
Lemma main_does_not_print_name_as_given :
  (positional_args [lit "  Bob  "] = [lit "  Bob  "] /\
   invoke utf8_strict [lit "  Bob  "]
   = (Raise (SystemExit 0),
      World [lit "worldbest"; lit "  Bob  "] (greeting (lit "Bob")) []
            utf8_strict) /\
   greeting (lit "Bob") <> greeting (lit "  Bob  ")) /\
  (parse_args (Some [[0xDCFF%N]]) (World [] [] [] utf8_strict)
   = (Ok {| Argparse.name := VStr [0xDCFF%N] |}, World [] [] [] utf8_strict) /\
   main (Some [[0xDCFF%N]]) (World [] [] [] utf8_strict)
   = (Raise UnicodeEncodeError, World [] [] [] utf8_strict) /\
   invoke utf8_strict [[0xDCFF%N]]
   = (Raise UnicodeEncodeError,
      World [lit "worldbest"; [0xDCFF%N]] [] [Traceback UnicodeEncodeError]
            utf8_strict) /\
   exit_status (fst (invoke utf8_strict [[0xDCFF%N]])) = 1%Z).
Proof.
  split; [split; [|split] | split; [|split; [|split]]];
    try reflexivity. discriminate.
Qed.

(** C5, amended. For every invocation that the argument parser accepts and
    whose name the standard output can encode, [main] prints
    [Hello, <NAME>!] and a newline on the standard output, where [<NAME>]
    is the positional argument with its leading and trailing whitespace
    removed, or [World] when there is no positional argument, and returns
    0. The parser accepts every invocation with no option string and at
    most one positional argument. With no argument the line is
    [Hello, World!], with [Alice] it is [Hello, Alice!], and the exit status
    is 0, whatever the encoding of the standard output. *)
Theorem main_accepted :
  (forall (argv : option (list str)) (w : world) ns w',
      parse_args argv w = (Ok ns, w') ->
      encodable w (Str.strip (NAME (arguments argv w))) = true ->
      main argv w
      = (Ok 0%Z,
         World (sys_argv w)
               (stdout w ++ greeting (Str.strip (NAME (arguments argv w))))
               (stderr w) (stdout_encodes w))) /\
  (forall (argv : option (list str)) (w : world),
      option_string_indices (arguments argv w) = [] ->
      List.length (positional_args (arguments argv w)) <= 1 ->
      exists ns, parse_args argv w = (Ok ns, w)) /\
  (forall enc : codepoint -> bool,
      invoke enc []
      = (Raise (SystemExit 0),
         World [lit "worldbest"] (greeting (lit "World")) [] enc)) /\
  (forall enc : codepoint -> bool,
      invoke enc [lit "Alice"]
      = (Raise (SystemExit 0),
         World [lit "worldbest"; lit "Alice"] (greeting (lit "Alice")) []
               enc)).
Proof.
  split; [|split; [|split]].
  - intros argv w ns w' E He. apply main_after_parse; [|exact He].
    destruct (option_string_indices (arguments argv w)) as [|t d] eqn:Ed.
    + destruct (Nat.le_gt_cases
                  (List.length (positional_args (arguments argv w))) 1)
        as [Hp|Hp].
      * apply parse_args_accepts; assumption.
      * destruct (@parse_args_rejects argv w) as [(m & F) | (_ & F)];
          [right; lia | congruence | congruence].
    + destruct (@parse_args_rejects argv w) as [(m & F) | (_ & F)];
        [left; congruence | congruence | congruence].
  - intros argv w Hd Hp. eexists. apply parse_args_accepts; assumption.
  - intros enc. rewrite invoke_accepted; [reflexivity | reflexivity | cbn; lia].
  - intros enc. rewrite invoke_accepted; [reflexivity | reflexivity | cbn; lia].
Qed.

Lemma main_accepted_witness :
  main (Some [lit " Carol "]) (World [] [] [] utf8_strict)
  = (Ok 0%Z, World [] (greeting (lit "Carol")) [] utf8_strict).
Proof.
  apply (proj1 main_accepted (Some [lit " Carol "])
               (World [] [] [] utf8_strict)
               {| Argparse.name := VStr (lit " Carol ") |}
               (World [] [] [] utf8_strict)); reflexivity.
Defined.

(** C6, as the specification states it, fails: [worldbest -h Alice Bob] has
    two positional arguments, and it prints the help on the standard output
    and leaves with status 0. *)
Lemma help_before_extra_arguments :
  positional_args [lit "-h"; lit "Alice"; lit "Bob"]
  = [lit "Alice"; lit "Bob"] /\
  invoke utf8_strict [lit "-h"; lit "Alice"; lit "Bob"]
  = (Raise (SystemExit 0),
     World [lit "worldbest"; lit "-h"; lit "Alice"; lit "Bob"] [HelpText] []
           utf8_strict) /\
  exit_status (fst (invoke utf8_strict [lit "-h"; lit "Alice"; lit "Bob"]))
  <> 2%Z.
Proof. split; [|split]; [reflexivity | reflexivity | discriminate]. Qed.

(** C6, amended. For every invocation with two positional arguments or more,
    or with an option string that names no option, no greeting is printed;
    the program prints the usage and an error message on the standard error
    and leaves with status 2, unless the help option is among the arguments
    and stops the parser first, in which case it prints the help on the
    standard output and leaves with status 0. *)
Theorem invalid_arguments_rejected (enc : codepoint -> bool)
        (args : list str) :
  2 <= List.length (positional_args args) \/ has_unknown_flag args = true ->
  (exists m,
      invoke enc args
      = (Raise (SystemExit 2),
         World (lit "worldbest" :: args) [] [Usage; ErrorLine m] enc)) \/
  (has_help_flag args = true /\
   invoke enc args
   = (Raise (SystemExit 0),
      World (lit "worldbest" :: args) [HelpText] [] enc)).
Proof.
  intros H.
  set (w := World (lit "worldbest" :: args) [] [] enc).
  destruct (@parse_args_rejects None w) as [(m & F) | (Hh & F)].
  - destruct H as [H|H]; [right; exact H | left].
    apply unknown_flag_indices. exact H.
  - left. exists m. apply invoke_exits. apply main_raises. exact F.
  - right. split; [exact Hh|]. apply invoke_exits. apply main_raises. exact F.
Qed.

Lemma invalid_arguments_rejected_witness :
  (exists m,
      invoke utf8_strict [lit "Alice"; lit "Bob"]
      = (Raise (SystemExit 2),
         World [lit "worldbest"; lit "Alice"; lit "Bob"] []
               [Usage; ErrorLine m] utf8_strict)) \/
  (has_help_flag [lit "Alice"; lit "Bob"] = true /\
   invoke utf8_strict [lit "Alice"; lit "Bob"]
   = (Raise (SystemExit 0),
      World [lit "worldbest"; lit "Alice"; lit "Bob"] [HelpText] []
            utf8_strict)).
Proof.
  apply (@invalid_arguments_rejected utf8_strict [lit "Alice"; lit "Bob"]).
  left. vm_compute. lia.
Defined.

(** Every invocation ends in one of four ways, and the loop bound of the
    model is never reached: the greeting and status 0; an exception in
    [print] that the interpreter reports, when the standard output cannot
    encode the name; the usage with an error and status 2; or the help and
    status 0. *)
Lemma invoke_outcomes (enc : codepoint -> bool) (args : list str) :
  invoke enc args
  = (Raise (SystemExit 0),
     World (lit "worldbest" :: args) (greeting (Str.strip (NAME args))) []
           enc) \/
  invoke enc args
  = (Raise UnicodeEncodeError,
     World (lit "worldbest" :: args) [] [Traceback UnicodeEncodeError] enc) \/
  (exists m,
      invoke enc args
      = (Raise (SystemExit 2),
         World (lit "worldbest" :: args) [] [Usage; ErrorLine m] enc)) \/
  invoke enc args
  = (Raise (SystemExit 0),
     World (lit "worldbest" :: args) [HelpText] [] enc).
Proof.
  set (w := World (lit "worldbest" :: args) [] [] enc).
  assert (rejected :
            option_string_indices args <> [] \/
            2 <= List.length (positional_args args) ->
            (exists m,
                invoke enc args = (Raise (SystemExit 2), error_reported m w))
            \/ invoke enc args = (Raise (SystemExit 0), help_printed w)).
  { intros H. destruct (@parse_args_rejects None w H) as [(m & F) | (_ & F)].
    - left. exists m. apply invoke_exits, main_raises. exact F.
    - right. apply invoke_exits, main_raises. exact F. }
  destruct (option_string_indices args) as [|t d] eqn:Ed.
  - destruct (Nat.le_gt_cases (List.length (positional_args args)) 1)
      as [Hp|Hp].
    + rewrite (invoke_accepted enc _ Ed Hp).
      destruct (encodes enc (Str.strip (NAME args))); auto.
    + right; right.
      destruct rejected as [(m & F) | F]; [right; lia | |].
      * left. exists m. exact F.
      * right. exact F.
  - right; right.
    destruct rejected as [(m & F) | F]; [left; discriminate | |].
    + left. exists m. exact F.
    + right. exact F.
Qed.

(** * Further properties *)

(** ** The greeter and whitespace *)

Lemma strip_padding (l s r : str) :
  forallb Str.isspace l = true -> forallb Str.isspace r = true ->
  Str.strip (l ++ s ++ r) = Str.strip s.
Proof.
  intros Hl Hr. apply trimmed_strip.
  destruct (strip_trimmed s) as (l' & r' & E & Hl' & Hr' & Hc & Hc').
  remember (Str.strip s) as t eqn:Et. clear Et.
  exists (l ++ l'), (r' ++ r). split; [|split; [|split; [|split]]].
  - rewrite E, <- !app_assoc. reflexivity.
  - rewrite forallb_app, Hl, Hl'. reflexivity.
  - rewrite forallb_app, Hr, Hr'. reflexivity.
  - exact Hc.
  - exact Hc'.
Qed.

Lemma strip_fixed (s : str) :
  Str.strip s = s <-> starts_clean s /\ starts_clean (rev s).
Proof.
  split.
  - intros E. destruct (strip_trimmed s) as (_ & _ & _ & _ & _ & Hc & Hc').
    rewrite E in Hc, Hc'. auto.
  - intros [Hc Hc']. apply trimmed_strip. exists [], []. simpl.
    rewrite app_nil_r. auto.
Qed.

(** X1. Whitespace around a name does not matter: a name with any
    whitespace put before and after it is greeted as the name itself. *)
Theorem greet_ignores_padding (l s r : str) (w : world) :
  forallb Str.isspace l = true -> forallb Str.isspace r = true ->
  greet (Some (VStr (l ++ s ++ r))) w = greet (Some (VStr s)) w.
Proof.
  intros Hl Hr. rewrite !greet_str, strip_padding by assumption. reflexivity.
Qed.

Lemma greet_ignores_padding_witness :
  greet (Some (VStr ([ch " "; ch "009"] ++ lit "Ada Lovelace" ++ lit "  ")))
        (World [] [] [] utf8_strict)
  = greet (Some (VStr (lit "Ada Lovelace"))) (World [] [] [] utf8_strict).
Proof.
  apply (greet_ignores_padding [ch " "; ch "009"] (lit "Ada Lovelace")
                               (lit "  ")
                               (World [] [] [] utf8_strict)); reflexivity.
Defined.

(** X2. A name is greeted verbatim, inner whitespace included, exactly when
    it neither starts nor ends with whitespace. *)
Theorem greet_verbatim_iff_clean (s : str) (w : world) :
  greet (Some (VStr s)) w = (Ok (lit "Hello, " ++ s ++ lit "!"), w)
  <-> starts_clean s /\ starts_clean (rev s).
Proof.
  rewrite greet_str, <- strip_fixed. split.
  - intros [= H]. apply app_inv_tail in H. exact H.
  - intros ->. reflexivity.
Qed.

(** X3. Two names get the same greeting exactly when they are the same
    after trimming. *)
Theorem greet_same_iff_same_trimmed (s1 s2 : str) (w : world) :
  greet (Some (VStr s1)) w = greet (Some (VStr s2)) w
  <-> Str.strip s1 = Str.strip s2.
Proof.
  rewrite !greet_str. split.
  - intros [= H]. apply app_inv_tail in H. exact H.
  - intros ->. reflexivity.
Qed.

(** ** What the command line accepts *)

(** X4. [parse_args] returns a namespace exactly when there is no option
    string and at most one positional argument; the namespace then holds
    that argument, or ["World"] when there is none, and nothing has been
    written. *)
Theorem parse_args_accepts_iff (argv : option (list str)) (w w' : world)
        (ns : Argparse.Namespace) :
  parse_args argv w = (Ok ns, w')
  <-> option_string_indices (arguments argv w) = [] /\
      List.length (positional_args (arguments argv w)) <= 1 /\
      ns = {| Argparse.name := VStr (NAME (arguments argv w)) |} /\ w' = w.
Proof.
  split.
  - intros E.
    assert (H : option_string_indices (arguments argv w) = [] /\
                List.length (positional_args (arguments argv w)) <= 1).
    { destruct (option_string_indices (arguments argv w)) as [|t d] eqn:Ed.
      - split; [reflexivity|].
        destruct (Nat.le_gt_cases
                    (List.length (positional_args (arguments argv w))) 1)
          as [Hp|Hp]; [exact Hp|].
        destruct (@parse_args_rejects argv w) as [(m & F) | (_ & F)];
          [right; lia | congruence | congruence].
      - destruct (@parse_args_rejects argv w) as [(m & F) | (_ & F)];
          [left; congruence | congruence | congruence]. }
    destruct H as [Hd Hp].
    rewrite (parse_args_accepts _ _ Hd Hp) in E. injection E as <- <-. auto.
  - intros (Hd & Hp & -> & ->). apply parse_args_accepts; assumption.
Qed.

(** X5. [main] always ends in one of four ways, whatever the arguments and
    the state of the streams. With no option string and at most one
    positional argument it prints one greeting line and returns 0 when the
    standard output can encode the name, and raises [UnicodeEncodeError]
    with nothing written when it cannot. Otherwise it writes the usage and
    an error line on the standard error, nothing on the standard output,
    and leaves with status 2; or it prints the help and leaves with status
    0, which needs a help option among the arguments. It raises nothing
    else, and [sys.argv] is left as it was. *)
Theorem main_outcomes (argv : option (list str)) (w : world) :
  (option_string_indices (arguments argv w) = [] /\
   List.length (positional_args (arguments argv w)) <= 1 /\
   encodable w (Str.strip (NAME (arguments argv w))) = true /\
   main argv w
   = (Ok 0%Z,
      World (sys_argv w)
            (stdout w ++ greeting (Str.strip (NAME (arguments argv w))))
            (stderr w) (stdout_encodes w))) \/
  (option_string_indices (arguments argv w) = [] /\
   List.length (positional_args (arguments argv w)) <= 1 /\
   encodable w (Str.strip (NAME (arguments argv w))) = false /\
   main argv w = (Raise UnicodeEncodeError, w)) \/
  (exists m,
      main argv w
      = (Raise (SystemExit 2),
         World (sys_argv w) (stdout w) (stderr w ++ [Usage; ErrorLine m])
               (stdout_encodes w))) \/
  (has_help_flag (arguments argv w) = true /\
   main argv w
   = (Raise (SystemExit 0),
      World (sys_argv w) (stdout w ++ [HelpText]) (stderr w)
            (stdout_encodes w))).
Proof.
  assert (rejected :
            option_string_indices (arguments argv w) <> [] \/
            2 <= List.length (positional_args (arguments argv w)) ->
            (exists m, main argv w = (Raise (SystemExit 2), error_reported m w))
            \/ (has_help_flag (arguments argv w) = true /\
                main argv w = (Raise (SystemExit 0), help_printed w))).
  { intros H. destruct (@parse_args_rejects argv w H) as [(m & F) | (Hh & F)].
    - left. exists m. apply main_raises. exact F.
    - right. split; [exact Hh|]. apply main_raises. exact F. }
  destruct (option_string_indices (arguments argv w)) as [|t d] eqn:Ed.
  - destruct (Nat.le_gt_cases
                (List.length (positional_args (arguments argv w))) 1)
      as [Hp|Hp].
    + assert (E : parse_args argv w
                  = (Ok {| Argparse.name := VStr (NAME (arguments argv w)) |},
                     w))
        by (apply parse_args_accepts; assumption).
      destruct (encodable w (Str.strip (NAME (arguments argv w)))) eqn:He.
      * left. repeat split; [exact Hp|]. apply main_after_parse; assumption.
      * right; left. repeat split; [exact Hp|].
        apply (main_cannot_encode _ E He).
    + right; right. apply rejected. right. lia.
  - right; right. apply rejected. left. discriminate.
Qed.

(** ** Names on the command line *)

Lemma plain_not_dashes (x : str) :
  plain x = true -> Str.eqb x (lit "--") = false.
Proof.
  destruct x as [|c x]; [reflexivity|]. cbn [plain].
  intros H. apply negb_true_iff in H.
  cbn [Str.eqb lit map list_ascii_of_string].
  change (N_of_ascii "-") with (ch "-"). rewrite H. reflexivity.
Qed.

Lemma plain_positional (x : str) :
  plain x = true -> Argparse.parse_optional x = inr None.
Proof.
  destruct x as [|c x]; [reflexivity|]. cbn [plain]. intros H.
  unfold Argparse.parse_optional. rewrite contains_prefix_chars.
  apply negb_true_iff in H. rewrite H. reflexivity.
Qed.

Lemma classify_plain (args : list str) :
  forallb plain args = true ->
  forall i, Argparse.classify i args
            = inr ([], map (fun _ => Argparse.PA) args).
Proof.
  induction args as [|x args IH]; intros H i; [reflexivity|].
  cbn [forallb] in H. apply andb_true_iff in H as [Hx H].
  cbn [Argparse.classify map].
  rewrite (plain_not_dashes _ Hx), (plain_positional _ Hx), (IH H).
  reflexivity.
Qed.

Lemma select_A_all (args : list str) :
  select_A args (map (fun _ => Argparse.PA) args) = args.
Proof.
  induction args as [|x args IH]; simpl; [reflexivity|].
  rewrite IH. reflexivity.
Qed.

Lemma plain_indices (args : list str) :
  forallb plain args = true ->
  option_string_indices args = [] /\ positional_args args = args.
Proof.
  intros H. unfold option_string_indices, positional_args, arg_strings_pattern.
  rewrite (classify_plain _ H). split; [reflexivity | apply select_A_all].
Qed.

(** X6. A single argument that does not start with a dash is always taken
    as the name, the empty string included. When the standard output can
    encode the trimmed name, the program prints its greeting and leaves with
    status 0; when it cannot, [print] raises [UnicodeEncodeError], nothing
    is printed, the interpreter reports the exception on the standard error,
    and the exit status is 1. *)
Theorem plain_name_greeted (enc : codepoint -> bool) (x : str) :
  plain x = true ->
  (encodes enc (Str.strip x) = true ->
   invoke enc [x]
   = (Raise (SystemExit 0),
      World [lit "worldbest"; x] (greeting (Str.strip x)) [] enc)) /\
  (encodes enc (Str.strip x) = false ->
   invoke enc [x]
   = (Raise UnicodeEncodeError,
      World [lit "worldbest"; x] [] [Traceback UnicodeEncodeError] enc) /\
   exit_status (fst (invoke enc [x])) = 1%Z).
Proof.
  intros H.
  destruct (@plain_indices [x]) as [Hd Hp];
    [cbn; rewrite H; reflexivity|].
  assert (E := invoke_accepted enc [x] Hd).
  rewrite Hp in E. specialize (E (Nat.le_refl 1)).
  unfold NAME in E. rewrite Hp in E. cbn [hd] in E.
  split; intros He; rewrite He in E; rewrite E; [reflexivity|].
  split; reflexivity.
Qed.

Lemma plain_name_greeted_witness :
  invoke utf8_strict [lit "Grace Hopper "]
  = (Raise (SystemExit 0),
     World [lit "worldbest"; lit "Grace Hopper "]
           (greeting (lit "Grace Hopper")) [] utf8_strict) /\
  (invoke ascii_strict [[74; 111; 115; 233]%N]
   = (Raise UnicodeEncodeError,
      World [lit "worldbest"; [74; 111; 115; 233]%N] []
            [Traceback UnicodeEncodeError] ascii_strict) /\
   exit_status (fst (invoke ascii_strict [[74; 111; 115; 233]%N])) = 1%Z).
Proof.
  split.
  - apply (proj1 (@plain_name_greeted utf8_strict (lit "Grace Hopper ")
                                      eq_refl)).
    reflexivity.
  - apply (proj2 (@plain_name_greeted ascii_strict [74; 111; 115; 233]%N
                                      eq_refl)).
    reflexivity.
Defined.

Lemma isspace_plain (x : str) : forallb Str.isspace x = true -> plain x = true.
Proof.
  destruct x as [|c x]; [reflexivity|]. cbn [forallb plain].
  intros H. apply andb_true_iff in H as [H _].
  destruct (N.eqb_spec c (ch "-")) as [->|]; [discriminate H | reflexivity].
Qed.

(** X7. A name given on the command line that is empty or all whitespace
    is not replaced by the default: the line printed is [Hello, !]. *)
Theorem blank_name_not_defaulted (enc : codepoint -> bool) (x : str) :
  forallb Str.isspace x = true ->
  invoke enc [x]
  = (Raise (SystemExit 0),
     World [lit "worldbest"; x] (greeting []) [] enc) /\
  greeting [] <> greeting (lit "World").
Proof.
  intros H. split; [|discriminate].
  destruct (@plain_indices [x]) as [Hd Hp];
    [cbn; rewrite (isspace_plain _ H); reflexivity|].
  assert (E := invoke_accepted enc [x] Hd).
  rewrite Hp in E. specialize (E (Nat.le_refl 1)).
  unfold NAME in E. rewrite Hp in E. cbn [hd] in E.
  rewrite (strip_all_space _ H) in E. exact E.
Qed.

Lemma blank_name_not_defaulted_witness :
  invoke ascii_strict [[]]
  = (Raise (SystemExit 0),
     World [lit "worldbest"; []] (greeting []) [] ascii_strict) /\
  greeting [] <> greeting (lit "World").
Proof.
  apply (@blank_name_not_defaulted ascii_strict []). reflexivity.
Defined.

(** X8. After ["--"] any string is taken as the name, also one that starts
    with a dash. When the standard output can encode the trimmed string,
    [worldbest -- y] prints the greeting of [y] and leaves with status 0;
    when it cannot, [print] raises [UnicodeEncodeError], nothing is printed,
    the interpreter reports the exception on the standard error, and the
    exit status is 1. *)
Theorem double_dash_escapes (enc : codepoint -> bool) (y : str) :
  (encodes enc (Str.strip y) = true ->
   invoke enc [lit "--"; y]
   = (Raise (SystemExit 0),
      World [lit "worldbest"; lit "--"; y] (greeting (Str.strip y)) [] enc))
  /\
  (encodes enc (Str.strip y) = false ->
   invoke enc [lit "--"; y]
   = (Raise UnicodeEncodeError,
      World [lit "worldbest"; lit "--"; y] []
            [Traceback UnicodeEncodeError] enc) /\
   exit_status (fst (invoke enc [lit "--"; y])) = 1%Z).
Proof.
  assert (E : invoke enc [lit "--"; y]
              = if encodes enc (Str.strip y)
                then (Raise (SystemExit 0),
                      World [lit "worldbest"; lit "--"; y]
                            (greeting (Str.strip y)) [] enc)
                else (Raise UnicodeEncodeError,
                      World [lit "worldbest"; lit "--"; y] []
                            [Traceback UnicodeEncodeError] enc)).
  { rewrite invoke_accepted; [reflexivity | reflexivity | cbn; lia]. }
  split; intros He; rewrite He in E; rewrite E; [reflexivity|].
  split; reflexivity.
Qed.

Lemma double_dash_escapes_witness :
  invoke utf8_strict [lit "--"; lit "-h"]
  = (Raise (SystemExit 0),
     World [lit "worldbest"; lit "--"; lit "-h"] (greeting (lit "-h")) []
           utf8_strict) /\
  (invoke utf8_strict [lit "--"; [0xDCFF%N]]
   = (Raise UnicodeEncodeError,
      World [lit "worldbest"; lit "--"; [0xDCFF%N]] []
            [Traceback UnicodeEncodeError] utf8_strict) /\
   exit_status (fst (invoke utf8_strict [lit "--"; [0xDCFF%N]])) = 1%Z).
Proof.
  split.
  - apply (proj1 (double_dash_escapes utf8_strict (lit "-h"))). reflexivity.
  - apply (proj2 (double_dash_escapes utf8_strict [0xDCFF%N])). reflexivity.
Defined.

(** X9. Of several arguments that do not start with a dash the first is
    taken as the name and the others are reported: the program writes the
    usage and [unrecognized arguments] with all but the first on the
    standard error, prints nothing, and leaves with status 2. *)
Theorem extra_names_reported (enc : codepoint -> bool) (x y : str)
        (rest : list str) :
  forallb plain (x :: y :: rest) = true ->
  invoke enc (x :: y :: rest)
  = (Raise (SystemExit 2),
     World (lit "worldbest" :: x :: y :: rest) []
           [Usage; ErrorLine (UnrecognizedArguments (y :: rest))] enc).
Proof.
  intros H.
  set (w := World (lit "worldbest" :: x :: y :: rest) [] [] enc).
  apply invoke_exits. fold w.
  apply (@main_raises None w
           (error_reported (UnrecognizedArguments (y :: rest)) w)
           (SystemExit 2)).
  rewrite parse_args_unfold. unfold Argparse.parse_known_args'.
  change (arguments None w) with (x :: y :: rest).
  rewrite (classify_plain _ H).
  run_parse_strings. apply error_spec.
Qed.

Lemma extra_names_reported_witness :
  invoke utf8_strict [lit "Alice"; lit "Bob"; lit "Carol"]
  = (Raise (SystemExit 2),
     World [lit "worldbest"; lit "Alice"; lit "Bob"; lit "Carol"] []
           [Usage; ErrorLine (UnrecognizedArguments [lit "Bob"; lit "Carol"])]
           utf8_strict).
Proof.
  apply (@extra_names_reported utf8_strict (lit "Alice") (lit "Bob")
                               [lit "Carol"]).
  reflexivity.
Defined.

(** ** The help option and unknown options *)

Lemma fold_right_min_0 (l : list nat) : fold_right Nat.min 0 l = 0.
Proof. induction l as [|x l IH]; simpl; [reflexivity | lia]. Qed.

(** When the first string is the help option, the loop runs it at once. *)
Lemma parse_strings_help_first (args : list str)
      (d : list (nat * Argparse.option_tuple)) (p : list Argparse.pat)
      (o : str) (ns : Argparse.Namespace) (w : world) :
  Argparse.parse_strings args ((0, (Some HelpAction, o, None)) :: d) p ns w
  = (Raise (SystemExit 0), help_printed w).
Proof.
  unfold Argparse.parse_strings. cbn [Argparse.parse_loop].
  assert (Hmax : Z.leb (Z.of_nat 0)
                        (Argparse.max_option_string_index
                           ((0, (Some HelpAction, o, None)) :: d)) = true).
  { unfold Argparse.max_option_string_index. cbn [map fst Argparse.list_max].
    apply Z.leb_le. lia. }
  rewrite Hmax.
  cbn [map fst filter Nat.leb Argparse.list_min].
  rewrite fold_right_min_0.
  reflexivity.
Qed.

(** X10. The help option as the first argument wins over whatever follows:
    [worldbest -h ...], in any of its spellings, prints the help on the
    standard output, nothing on the standard error, and leaves with status
    0. *)
Theorem help_first_wins (enc : codepoint -> bool) (h : str)
        (rest : list str) :
  In h help_option_strings ->
  invoke enc (h :: rest)
  = (Raise (SystemExit 0),
     World (lit "worldbest" :: h :: rest) [HelpText] [] enc).
Proof.
  intros Hh.
  set (w := World (lit "worldbest" :: h :: rest) [] [] enc).
  apply invoke_exits. fold w.
  apply (@main_raises None w (help_printed w) (SystemExit 0)).
  rewrite parse_args_unfold. unfold Argparse.parse_known_args'.
  change (arguments None w) with (h :: rest).
  cbn [Argparse.classify].
  destruct (classify_spec rest 1) as (d & p & -> & _).
  assert (E : exists o,
             Str.eqb h (lit "--") = false /\
             Argparse.parse_optional h
             = inr (Some (Some HelpAction, o, None))).
  { unfold help_option_strings in Hh. cbn [In] in Hh.
    destruct Hh as [<-|[<-|[<-|[<-|[<-|[]]]]]]; eexists; split; reflexivity. }
  destruct E as (o & -> & ->).
  unfold bind, Argparse.exit_on_error.
  rewrite parse_strings_help_first. reflexivity.
Qed.

Lemma help_first_wins_witness :
  invoke utf8_strict [lit "--he"; lit "Alice"; lit "--frobnicate"; lit "Bob"]
  = (Raise (SystemExit 0),
     World [lit "worldbest"; lit "--he"; lit "Alice"; lit "--frobnicate";
            lit "Bob"] [HelpText] [] utf8_strict).
Proof.
  apply (@help_first_wins utf8_strict (lit "--he")
                         [lit "Alice"; lit "--frobnicate"; lit "Bob"]).
  cbn. auto.
Defined.

Lemma long_lookup (c : codepoint) (r : str) :
  c <> ch "h" ->
  Argparse.lookup (ch "-" :: ch "-" :: c :: r) Argparse.option_string_actions
  = None.
Proof.
  intros Hc. apply N.eqb_neq in Hc.
  unfold Argparse.option_string_actions.
  cbn [Argparse.lookup Str.eqb lit map list_ascii_of_string].
  change (N_of_ascii "h") with (ch "h"). rewrite Hc. reflexivity.
Qed.

Lemma long_startswith (c : codepoint) (r : str) :
  c <> ch "h" ->
  Str.startswith (lit "--help") (ch "-" :: ch "-" :: c :: r) = false.
Proof.
  intros Hc. apply N.eqb_neq in Hc. rewrite N.eqb_sym in Hc.
  cbn [Str.startswith lit map list_ascii_of_string].
  change (N_of_ascii "h") with (ch "h"). rewrite Hc. reflexivity.
Qed.

Lemma long_split (c : codepoint) (body : str) :
  c <> ch "=" ->
  exists r e,
    Str.split1 (ch "=") (ch "-" :: ch "-" :: c :: body)
    = (ch "-" :: ch "-" :: c :: r, e).
Proof.
  intros Hc. apply N.eqb_neq in Hc.
  cbn [Str.split1]. change (N.eqb (ch "-") (ch "=")) with false. cbn iota.
  rewrite Hc. destruct (Str.split1 (ch "=") body) as [r e]. eauto.
Qed.

Lemma isdecimal_dash : Argparse.isdecimal (ch "-") = false.
Proof. vm_compute. reflexivity. Qed.

Lemma dashes_not_negative (s : str) :
  Argparse.negative_number (ch "-" :: ch "-" :: s) = false.
Proof.
  unfold Argparse.negative_number, Argparse.digits_then_end.
  cbn [Argparse.skip_digits]. rewrite isdecimal_dash.
  rewrite Nat.ltb_irrefl. reflexivity.
Qed.

(** A string that starts with two dashes and a character other than [h] and
    [=], and holds no space, is an option string that names no option. *)
Lemma long_flag_unknown (c : codepoint) (body : str) :
  c <> ch "h" -> c <> ch "=" ->
  Str.contains (ch " ") (c :: body) = false ->
  Argparse.parse_optional (lit "--" ++ c :: body)
  = inr (Some (None, lit "--" ++ c :: body, None)).
Proof.
  intros Hh He Hs.
  change (lit "--" ++ c :: body) with (ch "-" :: ch "-" :: c :: body).
  unfold Argparse.parse_optional. rewrite contains_prefix_chars.
  change (N.eqb (ch "-") (ch "-")) with true. cbn [negb].
  rewrite (long_lookup _ Hh). cbn [List.length Nat.eqb].
  unfold Argparse.get_option_tuples. rewrite !contains_prefix_chars.
  change (N.eqb (ch "-") (ch "-")) with true. cbn [andb].
  rewrite dashes_not_negative.
  assert (Hsp : Str.contains (ch " ") (ch "-" :: ch "-" :: c :: body) = false).
  { unfold Str.contains in *. cbn [existsb] in *.
    change (N.eqb (ch " ") (ch "-")) with false. exact Hs. }
  rewrite Hsp.
  unfold Argparse.option_string_actions. cbn [flat_map fst snd].
  destruct (Str.contains (ch "=") (ch "-" :: ch "-" :: c :: body)).
  - destruct (long_split body He) as (r & e & ->).
    rewrite (long_lookup _ Hh), startswith_h_dashes, (long_startswith _ Hh).
    reflexivity.
  - rewrite startswith_h_dashes, (long_startswith _ Hh). reflexivity.
Qed.

(** X11. A long option that the parser does not know is rejected: for a
    string of two dashes and more that does not go on with [h] or [=] and
    holds no space, [worldbest --...] writes the usage and
    [unrecognized arguments] with that string on the standard error, prints
    nothing, and leaves with status 2. *)
Theorem unknown_long_flag_rejected (enc : codepoint -> bool) (c : codepoint)
        (body : str) :
  c <> ch "h" -> c <> ch "=" ->
  Str.contains (ch " ") (c :: body) = false ->
  invoke enc [lit "--" ++ c :: body]
  = (Raise (SystemExit 2),
     World [lit "worldbest"; lit "--" ++ c :: body] []
           [Usage;
            ErrorLine (UnrecognizedArguments [lit "--" ++ c :: body])] enc).
Proof.
  intros Hh He Hs.
  set (flag := lit "--" ++ c :: body).
  set (w := World [lit "worldbest"; flag] [] [] enc).
  apply invoke_exits. fold w.
  apply (@main_raises None w
           (error_reported (UnrecognizedArguments [flag]) w)
           (SystemExit 2)).
  rewrite parse_args_unfold. unfold Argparse.parse_known_args'.
  change (arguments None w) with [flag].
  cbn [Argparse.classify].
  replace (Str.eqb flag (lit "--")) with false by reflexivity.
  unfold flag at 1. rewrite (long_flag_unknown body Hh He Hs).
  reflexivity.
Qed.

Lemma unknown_long_flag_rejected_witness :
  invoke utf8_strict [lit "--verbose"]
  = (Raise (SystemExit 2),
     World [lit "worldbest"; lit "--verbose"] []
           [Usage; ErrorLine (UnrecognizedArguments [lit "--verbose"])]
           utf8_strict).
Proof.
  apply (@unknown_long_flag_rejected utf8_strict (ch "v") (lit "erbose"));
    [discriminate | discriminate | reflexivity].
Defined.
